(** * molsym: point groups and the algebra of irreducible representations

    A shallow embedding of [molsym/pointgroup.py].  Python objects become
    records, the character tables become association lists in insertion
    order (the source keeps them in a [FrozenOrderedBidict]), exceptions
    become the [Raise] branch of a result type, and the one floating point
    expression of the program, [int(1/order * sum(...))], is evaluated with
    binary64 primitive floats. *)

From Stdlib Require Import ZArith List String Ascii Bool Lia.
From Stdlib Require Import Permutation Sorted DecimalString.
From Stdlib Require DecimalPos.
From Stdlib Require Import PrimFloat FloatOps SpecFloat Uint63.
Import ListNotations.
Open Scope string_scope.
Open Scope list_scope.
Open Scope Z_scope.

(** ** Exceptions *)

(** The exceptions the program raises itself or provokes in the
    interpreter. *)
Inductive exn :=
| AttributeError (msg : string)
| KeyError (key : string)
| TypeError (msg : string)
| ValueError (msg : string)
| NotImplementedError (msg : string)
| RecursionError
| ZeroDivisionError
| OverflowError
| StopIteration.

(** The built-in exception classes involved, with Python's hierarchy. *)
Inductive pyclass :=
| cException | cLookupError | cKeyError | cAttributeError | cTypeError
| cValueError | cRuntimeError | cNotImplementedError | cRecursionError
| cArithmeticError | cZeroDivisionError | cOverflowError | cStopIteration.

Definition class_of (e : exn) : pyclass :=
  match e with
  | AttributeError _ => cAttributeError
  | KeyError _ => cKeyError
  | TypeError _ => cTypeError
  | ValueError _ => cValueError
  | NotImplementedError _ => cNotImplementedError
  | RecursionError => cRecursionError
  | ZeroDivisionError => cZeroDivisionError
  | OverflowError => cOverflowError
  | StopIteration => cStopIteration
  end.

(** Direct base class; [Exception] is the root of this fragment. *)
Definition base (c : pyclass) : option pyclass :=
  match c with
  | cException => None
  | cKeyError => Some cLookupError
  | cNotImplementedError | cRecursionError => Some cRuntimeError
  | cZeroDivisionError | cOverflowError => Some cArithmeticError
  | _ => Some cException
  end.

Definition pyclass_eqb (c d : pyclass) : bool :=
  match c, d with
  | cException, cException | cLookupError, cLookupError
  | cKeyError, cKeyError | cAttributeError, cAttributeError
  | cTypeError, cTypeError | cValueError, cValueError
  | cRuntimeError, cRuntimeError
  | cNotImplementedError, cNotImplementedError
  | cRecursionError, cRecursionError
  | cArithmeticError, cArithmeticError
  | cZeroDivisionError, cZeroDivisionError
  | cOverflowError, cOverflowError
  | cStopIteration, cStopIteration => true
  | _, _ => false
  end.

(** [issubclass c d]; the hierarchy above has depth three. *)
Fixpoint issubclass_upto (depth : nat) (c d : pyclass) : bool :=
  pyclass_eqb c d ||
  match depth with
  | O => false
  | S k => match base c with
           | Some b => issubclass_upto k b d
           | None => false
           end
  end.

Definition issubclass : pyclass -> pyclass -> bool := issubclass_upto 3.

(** [isinstance(e, cls)] for a raised exception. *)
Definition isinstance (e : exn) (cls : pyclass) : bool :=
  issubclass (class_of e) cls.

(** A computation either returns or raises. *)
Inductive result (A : Type) :=
| Ok (a : A)
| Raise (e : exn).
Arguments Ok {A} a.
Arguments Raise {A} e.

Definition bind {A B : Type} (m : result A) (k : A -> result B) : result B :=
  match m with
  | Ok a => k a
  | Raise e => Raise e
  end.

Notation "x <- m ;; k" := (bind m (fun x => k))
  (at level 61, m at next level, right associativity).

(** A list comprehension whose body may raise: elements are evaluated left
    to right and the first exception aborts the whole comprehension. *)
Fixpoint comprehension {A B : Type} (f : A -> result B) (l : list A)
  : result (list B) :=
  match l with
  | [] => Ok []
  | x :: r => y <- f x ;; ys <- comprehension f r ;; Ok (y :: ys)
  end.

(** ** Strings (ASCII fragment of Python's [str]) *)

Definition is_upper (c : ascii) : bool :=
  let k := nat_of_ascii c in (65 <=? k)%nat && (k <=? 90)%nat.
Definition is_lower (c : ascii) : bool :=
  let k := nat_of_ascii c in (97 <=? k)%nat && (k <=? 122)%nat.
Definition is_alpha (c : ascii) : bool := is_upper c || is_lower c.
Definition is_digit (c : ascii) : bool :=
  let k := nat_of_ascii c in (48 <=? k)%nat && (k <=? 57)%nat.

Definition lower_char (c : ascii) : ascii :=
  if is_upper c then ascii_of_nat (nat_of_ascii c + 32) else c.
Definition upper_char (c : ascii) : ascii :=
  if is_lower c then ascii_of_nat (nat_of_ascii c - 32) else c.

(** [s.lower()] *)
Fixpoint lower (s : string) : string :=
  match s with
  | EmptyString => EmptyString
  | String c r => String (lower_char c) (lower r)
  end.

Fixpoint all_chars (p : ascii -> bool) (s : string) : bool :=
  match s with
  | EmptyString => true
  | String c r => p c && all_chars p r
  end.

(** [s.isalpha()]: every character is a letter and there is at least one. *)
Definition isalpha (s : string) : bool :=
  match s with
  | EmptyString => false
  | _ => all_chars is_alpha s
  end.

(** [s.title()]: a letter that follows a letter is lower-cased, any other
    letter is upper-cased. *)
Fixpoint title_from (previous_is_cased : bool) (s : string) : string :=
  match s with
  | EmptyString => EmptyString
  | String c r =>
      String (if previous_is_cased then lower_char c else upper_char c)
             (title_from (is_alpha c) r)
  end.
Definition title : string -> string := title_from false.

(** [s.replace(old, new)] for a one-character [old]. *)
Fixpoint replace (old : ascii) (new : string) (s : string) : string :=
  match s with
  | EmptyString => EmptyString
  | String c r =>
      if Ascii.eqb c old then (new ++ replace old new r)%string
      else String c (replace old new r)
  end.

(** The digits at the front of [s], and what follows them. *)
Fixpoint span_digits (s : string) : string * string :=
  match s with
  | EmptyString => (EmptyString, EmptyString)
  | String c r =>
      if is_digit c then let (d, rest) := span_digits r in (String c d, rest)
      else (EmptyString, s)
  end.

(** [re.search(r'\d+', s)]: the leftmost maximal run of digits, if any. *)
Fixpoint search_digits (s : string) : option string :=
  match s with
  | EmptyString => None
  | String c r =>
      if is_digit c then Some (fst (span_digits s)) else search_digits r
  end.

(** [re.sub(r'\d+', 'n', s)]: every maximal run of digits becomes one [n].
    [in_run] tells that the previous character was a digit. *)
Fixpoint sub_digits_from (in_run : bool) (s : string) : string :=
  match s with
  | EmptyString => EmptyString
  | String c r =>
      if is_digit c then
        if in_run then sub_digits_from true r
        else String "n" (sub_digits_from true r)
      else String c (sub_digits_from false r)
  end.
Definition sub_digits : string -> string := sub_digits_from false.

(** [int(s)] for a string of decimal digits. *)
Fixpoint int_from (acc : Z) (s : string) : Z :=
  match s with
  | EmptyString => acc
  | String c r => int_from (10 * acc + (Z.of_nat (nat_of_ascii c) - 48)) r
  end.
Definition int_of_digits : string -> Z := int_from 0.

(** [str(n)] for an integer. *)
Definition str_of_int (z : Z) : string := NilZero.string_of_int (Z.to_int z).

(** The double quote character, as a string. *)
Definition dquote : string := String (ascii_of_nat 34) EmptyString.

(** ** Data model *)

Module PointGroup.

(** A point group object: the family tag [pg] and the order [n] of the
    highest-order symmetry operation.  Its remaining attributes
    ([elements], [symop_multiplicity], [order]) are bound by
    [_set_irreps] from these two alone, see below. *)
Record t := mk { pg : string; n : Z }.

Definition __eq__ (self other : t) : bool :=
  String.eqb (pg self) (pg other) && Z.eqb (n self) (n other).

Definition __str__ (self : t) : string :=
  let pg_str := title (pg self) in
  replace "n" (str_of_int (n self)) pg_str.

End PointGroup.

(** Equality of two tuples of integers. *)
Fixpoint tuple_eqb (a b : list Z) : bool :=
  match a, b with
  | [], [] => true
  | x :: a', y :: b' => Z.eqb x y && tuple_eqb a' b'
  | _, _ => false
  end.

Module IrreducibleRepresentation.

(** [__init__] stores its three arguments. *)
Record t := mk { pg : PointGroup.t; irrep : list Z; degenerate : bool }.

Definition _irrep_product (self other : t) : list Z :=
  map (fun ab => fst ab * snd ab) (combine (irrep self) (irrep other)).

(** [__eq__] between two irreducible representations (for any other
    object the source returns [None]). *)
Definition __eq__ (self other : t) : bool :=
  PointGroup.__eq__ (pg self) (pg other)
  && tuple_eqb (irrep self) (irrep other).

Definition __len__ (self : t) : Z := 1.

Definition __contains__ (self item : t) : bool := __eq__ self item.

(** [__iter__], as the list of what it yields. *)
Definition __iter__ (self : t) : list t := [self].

End IrreducibleRepresentation.

Module Irrep := IrreducibleRepresentation.

(** What [_set_irreps] binds on a point group: the ordered mapping from
    Mulliken symbol to irreducible representation, the number of symmetry
    operations per class, and the order of the group. *)
Record Table := mkTable {
  elements : list (string * Irrep.t);
  symop_multiplicity : list Z;
  order : Z
}.

(** [elements.values()], in insertion order. *)
Definition values (els : list (string * Irrep.t)) : list Irrep.t :=
  map snd els.

(** [symbol in elements] *)
Definition has_key (symbol : string) (els : list (string * Irrep.t)) : bool :=
  existsb (fun kv => String.eqb (fst kv) symbol) els.

(** [elements[symbol]] *)
Definition getitem (els : list (string * Irrep.t)) (symbol : string)
  : result Irrep.t :=
  match find (fun kv => String.eqb (fst kv) symbol) els with
  | Some kv => Ok (snd kv)
  | None => Raise (KeyError symbol)
  end.

(** [elements.inv[irrep]]; keys of the inverse mapping are compared with
    [IrreducibleRepresentation.__eq__]. *)
Definition inv_getitem (els : list (string * Irrep.t)) (x : Irrep.t)
  : option string :=
  option_map fst (find (fun kv => Irrep.__eq__ (snd kv) x) els).

(** ** Character tables *)

Section Tables.

Variable self : PointGroup.t.

Let I (chars : list Z) : Irrep.t := Irrep.mk self chars false.
Let E (chars : list Z) : Irrep.t := Irrep.mk self chars true.

Definition table_C1 : Table :=
  let a := I [1] in
  mkTable [("a", a)] [1] 1.

Definition table_C2v : Table :=
  let a1 := I [1; 1; 1; 1] in
  let a2 := I [1; 1;-1;-1] in
  let b1 := I [1;-1; 1;-1] in
  let b2 := I [1;-1;-1; 1] in
  mkTable [("a1", a1); ("a2", a2); ("b1", b1); ("b2", b2)]
          [1; 1; 1; 1] 4.

Definition table_D3 : Table :=
  let a1 := I [1; 1; 1] in
  let a2 := I [1; 1;-1] in
  let e  := E [2;-1; 0] in
  mkTable [("a1", a1); ("a2", a2); ("e", e)]
          [1; 2; 3] 6.

Definition table_D2h : Table :=
  let ag  := I [1; 1; 1; 1; 1; 1; 1; 1] in
  let b1g := I [1; 1;-1;-1; 1; 1;-1;-1] in
  let b2g := I [1;-1;-1; 1; 1;-1; 1;-1] in
  let b3g := I [1;-1; 1;-1; 1;-1;-1; 1] in
  let au  := I [1; 1; 1; 1;-1;-1;-1;-1] in
  let b1u := I [1; 1;-1;-1;-1;-1; 1; 1] in
  let b2u := I [1;-1;-1; 1;-1; 1;-1; 1] in
  let b3u := I [1;-1; 1;-1;-1; 1; 1;-1] in
  mkTable [("ag", ag); ("b1g", b1g); ("b2g", b2g); ("b3g", b3g);
           ("au", au); ("b1u", b1u); ("b2u", b2u); ("b3u", b3u)]
          [1; 1; 1; 1; 1; 1; 1; 1] 8.

Definition table_D6h : Table :=
  let a1g := I [1; 1; 1; 1; 1; 1; 1; 1; 1; 1; 1; 1] in
  let a2g := I [1; 1; 1; 1;-1;-1; 1; 1; 1; 1;-1;-1] in
  let b1g := I [1;-1; 1;-1; 1;-1; 1; 1;-1;-1;-1; 1] in
  let b2g := I [1;-1; 1;-1;-1; 1; 1; 1;-1;-1; 1;-1] in
  let e1g := E [2; 1;-1;-2; 0; 0; 2;-1; 1;-2; 0; 0] in
  let e2g := E [2;-1;-1; 2; 0; 0; 2;-1;-1; 2; 0; 0] in
  let a1u := I [1; 1; 1; 1; 1; 1;-1;-1;-1;-1;-1;-1] in
  let a2u := I [1; 1; 1; 1;-1;-1;-1;-1;-1;-1; 1; 1] in
  let b1u := I [1;-1; 1;-1; 1;-1;-1;-1; 1; 1; 1;-1] in
  let b2u := I [1;-1; 1;-1;-1; 1;-1;-1; 1; 1;-1; 1] in
  let e1u := E [2; 1;-1;-2; 0; 0;-2; 1;-1; 2; 0; 0] in
  let e2u := E [2;-1;-1; 2; 0; 0;-2; 1; 1;-2; 0; 0] in
  mkTable [("a1g", a1g); ("a2g", a2g); ("b1g", b1g); ("b2g", b2g);
           ("e1g", e1g); ("e2g", e2g); ("a1u", a1u); ("a2u", a2u);
           ("b1u", b1u); ("b2u", b2u); ("e1u", e1u); ("e2u", e2u)]
          [1; 2; 2; 1; 3; 3; 1; 2; 2; 1; 3; 3] 24.

(** [_set_irreps]: the attributes it binds, or [None] when no branch of
    the source applies and nothing is bound. *)
Definition _set_irreps : option Table :=
  let pg := PointGroup.pg self in
  let n := PointGroup.n self in
  if String.eqb pg "cn" then
    if n =? 1 then Some table_C1 else None
  else if String.eqb pg "cnv" then
    if n =? 2 then Some table_C2v else None
  else if String.eqb pg "dn" then
    if n =? 3 then Some table_D3 else None
  else if String.eqb pg "dnh" then
    if n =? 2 then Some table_D2h
    else if n =? 6 then Some table_D6h
    else None
  else None.

End Tables.

(** ** PointGroup *)

(** [PointGroup.__init__].  The constructed object is returned; whether its
    table attributes are bound is [_set_irreps] of it. *)
Definition __init__ (pg : string) (n : Z) : result PointGroup.t :=
  let pg := lower pg in
  if isalpha pg then Ok (PointGroup.mk pg n)
  else
    match search_digits pg with
    | Some digits => Ok (PointGroup.mk (sub_digits pg) (int_of_digits digits))
    | None =>
        (* re.search found nothing and [.group()] is applied to None *)
        Raise (AttributeError "'NoneType' object has no attribute 'group'")
    end.

(** The named shorthands [C1()], [C2v()], [D3()], [D2h()], [D6h()] call
    [__init__] with the class name. *)
Definition named (class_name : string) : result PointGroup.t :=
  __init__ class_name 1.

Definition unknown_symbol (self : PointGroup.t) (symbol : string) : exn :=
  AttributeError ("character " ++ dquote ++ symbol ++ dquote
                  ++ " does not exist in point group "
                  ++ PointGroup.__str__ self)%string.

(** [PointGroup.__getattr__].  The interpreter calls it for every attribute
    that ordinary lookup does not find.  On a group whose table was never
    bound that includes [self.elements] inside [__getattr__] itself, so the
    method re-enters itself until the recursion limit, here [depth] nested
    calls, is exhausted. *)
Fixpoint __getattr__ (depth : nat) (self : PointGroup.t) (symbol : string)
  : result Irrep.t :=
  match depth with
  | O => Raise RecursionError
  | S depth' =>
      let symbol := lower symbol in
      match _set_irreps self with
      | Some t =>
          if has_key symbol (elements t)
          then getitem (elements t) symbol     (* self.irrep(symbol) *)
          else Raise (unknown_symbol self symbol)
      | None =>
          (* self.elements is __getattr__('elements'); were it to return
             an irrep x, [symbol in x] would be false *)
          _ <- __getattr__ depth' self "elements" ;;
          Raise (unknown_symbol self symbol)
      end
  end.

(** Reading one of the table attributes of a point group from outside
    [__getattr__]: bound for a tabulated group; otherwise the read goes
    through [__getattr__] and ends in the recursion error shown in
    [getattr_unbound] below. *)
Definition attribute {A : Type} (field : Table -> A) (self : PointGroup.t)
  : result A :=
  match _set_irreps self with
  | Some t => Ok (field t)
  | None => Raise RecursionError
  end.

(** [PointGroup.irrep] *)
Definition irrep (self : PointGroup.t) (symbol : string) : result Irrep.t :=
  els <- attribute elements self ;;
  getitem els symbol.

(** [PointGroup.__call__] *)
Definition __call__ (self : PointGroup.t) (symbol : string) : result Irrep.t :=
  let symbol := lower symbol in
  irrep self symbol.

(** [PointGroup.symbol]; a missing key of the inverse mapping is a
    [KeyError]. *)
Definition symbol (self : PointGroup.t) (x : Irrep.t) : result string :=
  els <- attribute elements self ;;
  match inv_getitem els x with
  | Some s => Ok s
  | None => Raise (KeyError "irrep")
  end.

(** [PointGroup.ts]: the first key of the inverse mapping. *)
Definition ts (self : PointGroup.t) : result Irrep.t :=
  els <- attribute elements self ;;
  match values els with
  | first :: _ => Ok first
  | [] => Raise StopIteration
  end.

(** ** Floating point *)

(** Conversion of a Python [int] to [float]: round to nearest even; an
    integer beyond the binary64 range raises [OverflowError]. *)
Definition float_of_int (z : Z) : result float :=
  match binary_normalize prec emax z 0 false with
  | S754_infinity _ => Raise OverflowError
  | sf => Ok (SF2Prim sf)
  end.

(** [int(x)] of a float: truncation towards zero. *)
Definition int_of_float (x : float) : result Z :=
  match Prim2SF x with
  | S754_zero _ => Ok 0
  | S754_finite s m e =>
      let magnitude :=
        if 0 <=? e then Z.pos m * 2 ^ e else Z.pos m / 2 ^ (- e) in
      Ok (if s then - magnitude else magnitude)
  | S754_infinity _ => Raise OverflowError
  | S754_nan => Raise (ValueError "cannot convert float NaN to integer")
  end.

(** [a / b] on two ints under [from __future__ import division] (exact for
    operands below [2^53], which covers every table). *)
Definition true_div (a b : Z) : result float :=
  if b =? 0 then Raise ZeroDivisionError
  else
    x <- float_of_int a ;;
    y <- float_of_int b ;;
    Ok (PrimFloat.div x y).

(** [x * k] for a float [x] and an int [k]. *)
Definition float_mul_int (x : float) (k : Z) : result float :=
  y <- float_of_int k ;;
  Ok (PrimFloat.mul x y).

(** ** IrreducibleRepresentation *)

(** The objects handed to the operators. *)
#[local] Set Warnings "-register-all".
Inductive value :=
| VIrrep (a : Irrep.t)
| VList (l : list value)
| VTuple (l : list value)
| VInt (z : Z)
| VFloat (x : float)
| VStr (s : string)
| VNone.

(** What the operators return: one irreducible representation, or a list
    of them. *)
Inductive irreps :=
| One (a : Irrep.t)
| Many (l : list Irrep.t).

Definition value_of (r : irreps) : value :=
  match r with
  | One a => VIrrep a
  | Many l => VList (map VIrrep l)
  end.

(** [zip] of three sequences stops with the shortest. *)
Fixpoint zip3 {A B C : Type} (a : list A) (b : list B) (c : list C)
  : list (A * B * C) :=
  match a, b, c with
  | x :: a', y :: b', z :: c' => (x, y, z) :: zip3 a' b' c'
  | _, _, _ => []
  end.

(** [sum] of a list of ints. *)
Definition sum (l : list Z) : Z := fold_left Z.add l 0.

(** [flatten] on what [__mul__] passes to it: the results of [self*irrep],
    each an irreducible representation (yielded as it is, being excluded
    from the recursion) or a list, whose items are yielded in turn. *)
Fixpoint flatten_irreps (items : list Irrep.t) : list Irrep.t :=
  match items with
  | [] => []
  | x :: rest => x :: flatten_irreps rest
  end.

Fixpoint flatten (items : list irreps) : list Irrep.t :=
  match items with
  | [] => []
  | One x :: rest => x :: flatten rest
  | Many xs :: rest => flatten_irreps xs ++ flatten rest
  end.

(** The loop of [__lt__] over [self.pg.elements.values()]; [None] when the
    loop ends without returning. *)
Fixpoint lt_loop (self other : Irrep.t) (vals : list Irrep.t) : option bool :=
  match vals with
  | [] => None
  | irrep :: rest =>
      if Irrep.__eq__ irrep self then Some true
      else if Irrep.__eq__ irrep other then Some false
      else lt_loop self other rest
  end.

(** [IrreducibleRepresentation.__lt__] *)
Definition __lt__ (self other : Irrep.t) : result (option bool) :=
  els <- attribute elements (Irrep.pg self) ;;
  Ok (lt_loop self other (values els)).

(** Truth value of what [__lt__] returned ([None] is false). *)
Definition truth (r : option bool) : bool :=
  match r with
  | Some b => b
  | None => false
  end.

(** [list.sort()] on a list of irreducible representations.  The built-in
    sort consults [__lt__] only; it is modelled as insertion sort, each
    item going in front of the first one it is less than. *)
Fixpoint insert (x : Irrep.t) (sorted : list Irrep.t) : result (list Irrep.t) :=
  match sorted with
  | [] => Ok [x]
  | y :: rest =>
      r <- __lt__ x y ;;
      if truth r then Ok (x :: y :: rest)
      else rest' <- insert x rest ;; Ok (y :: rest')
  end.

Fixpoint sort_into (sorted : list Irrep.t) (l : list Irrep.t)
  : result (list Irrep.t) :=
  match l with
  | [] => Ok sorted
  | x :: rest => sorted' <- insert x sorted ;; sort_into sorted' rest
  end.

Definition sort (l : list Irrep.t) : result (list Irrep.t) := sort_into [] l.

(** One entry of the list [ai] in [__mul__]:
    [int(1/order * sum([i*j*k for i,j,k in zip(multiplicity, irrep, product)]))]. *)
Definition coefficient (order : Z) (multiplicity : list Z)
    (irrep product : list Z) : result Z :=
  inverse <- true_div 1 order ;;
  x <- float_mul_int inverse
         (sum (map (fun ijk => let '(i, j, k) := ijk in i * j * k)
                   (zip3 multiplicity irrep product))) ;;
  int_of_float x.

Definition different_groups (a b : PointGroup.t) : exn :=
  NotImplementedError
    ("no automatic lowering of symmetry: cannot multiply irreps of non-identical point groups "
     ++ PointGroup.__str__ a ++ " and " ++ PointGroup.__str__ b ++ ".")%string.

(** The list [ai] of [__mul__], one entry per table irrep in table order. *)
Definition coefficients (order : Z) (multiplicity : list Z)
    (vals : list Irrep.t) (product : list Z) : result (list Z) :=
  comprehension
    (fun irrep => coefficient order multiplicity (Irrep.irrep irrep) product)
    vals.

(** The branch of [__mul__] for [other] an irreducible representation. *)
Definition mul_irrep (self other : Irrep.t) : result irreps :=
  if PointGroup.__eq__ (Irrep.pg self) (Irrep.pg other) then
    let product := Irrep._irrep_product self other in
    if Irrep.degenerate self && Irrep.degenerate other then
      els <- attribute elements (Irrep.pg self) ;;
      order <- attribute order (Irrep.pg self) ;;
      multiplicity <- attribute symop_multiplicity (Irrep.pg self) ;;
      ai <- coefficients order multiplicity (values els) product ;;
      let product_irreps :=
        map snd (filter (fun a_irrep => negb (fst a_irrep =? 0))
                        (combine ai (values els))) in
      Ok (Many product_irreps)
    else
      Ok (One (Irrep.mk (Irrep.pg self) product
                 (Irrep.degenerate self || Irrep.degenerate other)))
  else Raise (different_groups (Irrep.pg self) (Irrep.pg other)).

Definition bad_factor : exn :=
  TypeError "IrreducibleRepresentation can only be multiplied with (list of) IrreducibleRepresentation".

(** [IrreducibleRepresentation.__mul__] *)
Fixpoint __mul__ (self : Irrep.t) (other : value) {struct other}
  : result irreps :=
  match other with
  | VIrrep other => mul_irrep self other
  | VList others =>
      products <-
        (fix each (l : list value) : result (list irreps) :=
           match l with
           | [] => Ok []
           | irrep :: rest =>
               p <- __mul__ self irrep ;; ps <- each rest ;; Ok (p :: ps)
           end) others ;;
      all_products <- sort (flatten products) ;;
      Ok (Many all_products)
  | _ => Raise bad_factor
  end.

(** [IrreducibleRepresentation.__rmul__]; [None] for anything but a list. *)
Definition __rmul__ (self : Irrep.t) (other : value) : result (option irreps) :=
  match other with
  | VList _ => r <- __mul__ self other ;; Ok (Some r)
  | _ => Ok None
  end.

(** [IrreducibleRepresentation.__add__], for [other] an irreducible
    representation or a list of them. *)
Definition __add__ (self : Irrep.t) (other : irreps) : result (list Irrep.t) :=
  let irrep_list :=
    match other with
    | Many other => [self] ++ other
    | One other => [self; other]
    end in
  sort irrep_list.

(** [IrreducibleRepresentation.__radd__]; [None] for anything but a list. *)
Definition __radd__ (self : Irrep.t) (other : irreps)
  : result (option (list Irrep.t)) :=
  match other with
  | Many other => l <- sort (other ++ [self]) ;; Ok (Some l)
  | One _ => Ok None
  end.

(** [operator.mul(x, y)], that is [x * y], for [y] an irreducible
    representation: [x.__mul__(y)] when [x] is one too; a list has no
    product with such a [y], so the interpreter turns to
    [y.__rmul__(x)]. *)
Definition mul (x : irreps) (y : Irrep.t) : result irreps :=
  match x with
  | One a => __mul__ a (VIrrep y)
  | Many l => __mul__ y (VList (map VIrrep l))
  end.

(** [reduce(function, sequence)] without initial value, on a non-empty
    sequence given as its first item and the rest. *)
Fixpoint reduce {A B : Type} (f : A -> B -> result A) (acc : A) (l : list B)
  : result A :=
  match l with
  | [] => Ok acc
  | x :: rest => acc' <- f acc x ;; reduce f acc' rest
  end.

Definition bad_exponent : exn :=
  ValueError "IrreducibleRepresentation() can only be raised to scalar of type <int>".

(** [IrreducibleRepresentation.__pow__] *)
Definition __pow__ (self : Irrep.t) (other : value) : result irreps :=
  match other with
  | VInt other =>
      if other <? 2 then Ok (One self)
      else
        match repeat self (Z.to_nat other) with
        | first :: rest => reduce mul (One first) rest
        | [] => Ok (One self)
        end
  | _ => Raise bad_exponent
  end.

(** [IrreducibleRepresentation.__str__] *)
Definition __str__ (self : Irrep.t) : result string :=
  symbol (Irrep.pg self) self.

(** [x + y] as the interpreter resolves it: [x.__add__(y)] when [x] is an
    irreducible representation; for a list [x], [y.__radd__(x)] when [y]
    is one, and list concatenation when [y] is a list too. *)
Definition add (x y : irreps) : result irreps :=
  match x, y with
  | One a, _ => l <- __add__ a y ;; Ok (Many l)
  | Many l, One b => l' <- sort (l ++ [b]) ;; Ok (Many l')
  | Many l, Many l' => Ok (Many (l ++ l'))
  end.

(** The interpreter's default limit on nested calls. *)
Definition recursion_limit : nat := 1000.

(** The expression of the module's last doctest,
    [d6h.e2u + d6h.e1g * d6h.e2u * d6h.e2u + d6h.a1g]. *)
Definition d6h_expression : result irreps :=
  d6h <- __init__ "D6h" 1 ;;
  e2u <- __getattr__ recursion_limit d6h "e2u" ;;
  e1g <- __getattr__ recursion_limit d6h "e1g" ;;
  a1g <- __getattr__ recursion_limit d6h "a1g" ;;
  e1g_e2u <- __mul__ e1g (VIrrep e2u) ;;
  e1g_e2u_e2u <- mul e1g_e2u e2u ;;
  left <- add (One e2u) e1g_e2u_e2u ;;
  add left (One a1g).

(** The irreps of D6h with the given symbols. *)
Definition d6h_irreps (symbols : list string) : result (list Irrep.t) :=
  d6h <- __init__ "D6h" 1 ;;
  comprehension (__getattr__ recursion_limit d6h) symbols.

(** ** Groups and irreps used as examples *)

Definition D3 : PointGroup.t := PointGroup.mk "dn" 3.
Definition D2h : PointGroup.t := PointGroup.mk "dnh" 2.
Definition D6h : PointGroup.t := PointGroup.mk "dnh" 6.
Definition C2h : PointGroup.t := PointGroup.mk "cnh" 2.

Definition D2h_ag : Irrep.t := Irrep.mk D2h [1; 1; 1; 1; 1; 1; 1; 1] false.
Definition D2h_b2g : Irrep.t := Irrep.mk D2h [1;-1;-1; 1; 1;-1; 1;-1] false.
Definition D2h_b3u : Irrep.t := Irrep.mk D2h [1;-1; 1;-1;-1; 1; 1;-1] false.
Definition D6h_a1g : Irrep.t :=
  Irrep.mk D6h [1; 1; 1; 1; 1; 1; 1; 1; 1; 1; 1; 1] false.
Definition D6h_a2g : Irrep.t :=
  Irrep.mk D6h [1; 1; 1; 1;-1;-1; 1; 1; 1; 1;-1;-1] false.
Definition D6h_b1g : Irrep.t :=
  Irrep.mk D6h [1;-1; 1;-1; 1;-1; 1; 1;-1;-1;-1; 1] false.
Definition D6h_b2g : Irrep.t :=
  Irrep.mk D6h [1;-1; 1;-1;-1; 1; 1; 1;-1;-1; 1;-1] false.
Definition D6h_e1g : Irrep.t :=
  Irrep.mk D6h [2; 1;-1;-2; 0; 0; 2;-1; 1;-2; 0; 0] true.
Definition D6h_e2g : Irrep.t :=
  Irrep.mk D6h [2;-1;-1; 2; 0; 0; 2;-1;-1; 2; 0; 0] true.
Definition D6h_b1u : Irrep.t :=
  Irrep.mk D6h [1;-1; 1;-1; 1;-1;-1;-1; 1; 1; 1;-1] false.
Definition D6h_e2u : Irrep.t :=
  Irrep.mk D6h [2;-1;-1; 2; 0; 0;-2; 1; 1;-2; 0; 0] true.

(** ** Notions of the specification *)

(** Canonical table position: the index of the first table entry equal to
    [x]. *)
Fixpoint position (x : Irrep.t) (vals : list Irrep.t) : option nat :=
  match vals with
  | [] => None
  | irrep :: rest =>
      if Irrep.__eq__ irrep x then Some O
      else option_map S (position x rest)
  end.

(** Position used as a sort key; an object outside the table goes last. *)
Definition rank (vals : list Irrep.t) (x : Irrep.t) : nat :=
  match position x vals with
  | Some i => i
  | None => List.length vals
  end.

(** [x] stands no later than [y] in the table. *)
Definition precedes (vals : list Irrep.t) (x y : Irrep.t) : Prop :=
  (rank vals x <= rank vals y)%nat.

(** A sequence in canonical table order. *)
Definition canonical (vals : list Irrep.t) (l : list Irrep.t) : Prop :=
  Sorted (precedes vals) l.

(** Stable sort by table position: the items at position 0 in their
    original order, then those at position 1, and so on. *)
Definition canonical_order (vals : list Irrep.t) (l : list Irrep.t)
  : list Irrep.t :=
  flat_map (fun i => filter (fun x => Nat.eqb (rank vals x) i) l)
           (seq 0 (S (List.length vals))).

(** Position-wise product of two character vectors. *)
Definition positionwise (a b : list Z) : list Z :=
  map (fun i => nth i a 0 * nth i b 0)
      (seq 0 (Nat.min (List.length a) (List.length b))).

(** The sum of the reduction formula,
    [sum_i multiplicity_i * R.character_i * product_i], over the classes
    of the group. *)
Definition reduction_sum (t : Table) (R : Irrep.t) (product : list Z) : Z :=
  fold_right Z.add 0
    (map (fun i => nth i (symop_multiplicity t) 0
                   * nth i (Irrep.irrep R) 0 * nth i product 0)
         (seq 0 (List.length (symop_multiplicity t)))).

(** The reduction coefficient [a_R = (1/order) * reduction_sum]. *)
Definition a_R (t : Table) (R : Irrep.t) (product : list Z) : Z :=
  reduction_sum t R product / order t.

(** The decomposition as the specification describes it: every [R] of the
    table, in table order, [a_R] times; the whole in canonical order. *)
Definition decomposition (t : Table) (A B : Irrep.t) : list Irrep.t :=
  let product := positionwise (Irrep.irrep A) (Irrep.irrep B) in
  canonical_order (values (elements t))
    (flat_map (fun R => repeat R (Z.to_nat (a_R t R product)))
              (values (elements t))).

(** The items of a result, one or many. *)
Definition items (r : irreps) : list Irrep.t :=
  match r with
  | One a => [a]
  | Many l => l
  end.

(** Whether a result is a single irreducible representation. *)
Definition is_one (r : irreps) : bool :=
  match r with
  | One _ => true
  | Many _ => false
  end.

(** Equality of two irreducible representations as records, flag
    included. *)
Definition same (x y : Irrep.t) : bool :=
  Irrep.__eq__ x y && Bool.eqb (Irrep.degenerate x) (Irrep.degenerate y).

(** No two entries of the table are equal under [__eq__]. *)
Fixpoint distinct (vals : list Irrep.t) : bool :=
  match vals with
  | [] => true
  | x :: rest =>
      forallb (fun y => negb (Irrep.__eq__ x y)) rest && distinct rest
  end.

(** The five groups for which [_set_irreps] binds a table. *)
Definition tabulated : list PointGroup.t :=
  [PointGroup.mk "cn" 1; PointGroup.mk "cnv" 2; PointGroup.mk "dn" 3;
   PointGroup.mk "dnh" 2; PointGroup.mk "dnh" 6].

(** A value that is neither an irreducible representation nor a list. *)
Definition no_factor (v : value) : bool :=
  match v with
  | VIrrep _ | VList _ => false
  | _ => true
  end.

(** A value that is not an [int]. *)
Definition no_int (v : value) : bool :=
  match v with
  | VInt _ => false
  | _ => true
  end.

(** ** Further notions used in the properties *)

(** Whether a string holds a decimal digit. *)
Fixpoint has_digit (s : string) : bool :=
  match s with
  | EmptyString => false
  | String c r => is_digit c || has_digit r
  end.

(** Whether the character [c] occurs in a string. *)
Fixpoint occurs (c : ascii) (s : string) : bool :=
  match s with
  | EmptyString => false
  | String a r => Ascii.eqb a c || occurs c r
  end.

(** No two neighbouring characters of the string are both [c]. *)
Fixpoint no_double (c : ascii) (s : string) : bool :=
  match s with
  | EmptyString => true
  | String a r =>
      match r with
      | String b _ => negb (Ascii.eqb a c && Ascii.eqb b c)
      | EmptyString => true
      end && no_double c r
  end.

(** A family tag as the tables write them: a lower-case letter followed by
    lower-case letters among which the placeholder [n] occurs, never twice
    in a row. *)
Definition family_tag (pg : string) : bool :=
  match pg with
  | EmptyString => false
  | String c rest =>
      is_lower c && all_chars is_lower rest
      && occurs "n" rest && no_double "n" rest
  end.

(** The string is empty or begins with a character that is no digit. *)
Definition no_digit_ahead (s : string) : Prop :=
  match s with
  | EmptyString => True
  | String b _ => is_digit b = false
  end.

(** The items of the product [A * x], nothing when it raises. *)
Definition product_items (A x : Irrep.t) : list Irrep.t :=
  match __mul__ A (VIrrep x) with
  | Ok p => items p
  | Raise _ => []
  end.

(** Equality of two lists of irreps, item by item as records. *)
Fixpoint same_list (l l' : list Irrep.t) : bool :=
  match l, l' with
  | [], [] => true
  | x :: r, y :: r' => same x y && same_list r r'
  | _, _ => false
  end.

(** [(A * B) * C] and [A * (B * C)] as the interpreter evaluates them. *)
Definition left_product (A B C : Irrep.t) : result irreps :=
  AB <- __mul__ A (VIrrep B) ;; mul AB C.

Definition right_product (A B C : Irrep.t) : result irreps :=
  BC <- __mul__ B (VIrrep C) ;; __mul__ A (value_of BC).

(** The names of the shorthand classes [C1], [C2v], [D3], [D2h], [D6h]. *)
Definition shorthands : list string := ["C1"; "C2v"; "D3"; "D2h"; "D6h"].

(** More irreps used as examples. *)
Definition C2v : PointGroup.t := PointGroup.mk "cnv" 2.
Definition C2v_a1 : Irrep.t := Irrep.mk C2v [1; 1; 1; 1] false.
Definition C2v_b1 : Irrep.t := Irrep.mk C2v [1;-1; 1;-1] false.
Definition D2h_b1u : Irrep.t := Irrep.mk D2h [1; 1;-1;-1;-1;-1; 1; 1] false.
Definition D3_e : Irrep.t := Irrep.mk D3 [2;-1; 0] true.

(** The character of e1g of D6h with the degenerate flag left off. *)
Definition D6h_e1g_unflagged : Irrep.t :=
  Irrep.mk D6h [2; 1;-1;-2; 0; 0; 2;-1; 1;-2; 0; 0] false.

(** * Properties *)

(** ** Equality tests *)

Lemma tuple_eqb_eq (a b : list Z) : tuple_eqb a b = true <-> a = b.
Proof.
  revert b; induction a as [|x a IH]; intros [|y b]; simpl;
    try (split; [discriminate | congruence]); try tauto.
  rewrite andb_true_iff, Z.eqb_eq, IH.
  split; [intros [-> ->]; reflexivity | intros H; inversion H; auto].
Qed.

Lemma pointgroup_eq_spec (g h : PointGroup.t) :
  PointGroup.__eq__ g h = true <-> g = h.
Proof.
  destruct g as [p n], h as [q m]; unfold PointGroup.__eq__; simpl.
  rewrite andb_true_iff, String.eqb_eq, Z.eqb_eq.
  split; [intros [-> ->]; reflexivity | intros H; inversion H; auto].
Qed.

Lemma irrep_eq_spec (x y : Irrep.t) :
  Irrep.__eq__ x y = true <->
  Irrep.pg x = Irrep.pg y /\ Irrep.irrep x = Irrep.irrep y.
Proof.
  unfold Irrep.__eq__.
  now rewrite andb_true_iff, pointgroup_eq_spec, tuple_eqb_eq.
Qed.

Lemma irrep_eq_refl (x : Irrep.t) : Irrep.__eq__ x x = true.
Proof. apply irrep_eq_spec; split; reflexivity. Qed.

Lemma same_spec (x y : Irrep.t) : same x y = true <-> x = y.
Proof.
  unfold same; rewrite andb_true_iff, irrep_eq_spec, Bool.eqb_true_iff.
  destruct x, y; simpl; split.
  - intros [[-> ->] ->]; reflexivity.
  - intros H; inversion H; auto.
Qed.

(** ** The tabulated groups *)

Lemma set_irreps_cases (g : PointGroup.t) (t : Table) :
  _set_irreps g = Some t ->
  (g = PointGroup.mk "cn" 1 /\ t = table_C1 g)
  \/ (g = PointGroup.mk "cnv" 2 /\ t = table_C2v g)
  \/ (g = PointGroup.mk "dn" 3 /\ t = table_D3 g)
  \/ (g = PointGroup.mk "dnh" 2 /\ t = table_D2h g)
  \/ (g = PointGroup.mk "dnh" 6 /\ t = table_D6h g).
Proof.
  destruct g as [pg n]; unfold _set_irreps; simpl.
  destruct (String.eqb_spec pg "cn") as [->|_].
  { destruct (Z.eqb_spec n 1) as [->|_]; [|discriminate].
    intros H; inversion H; auto. }
  destruct (String.eqb_spec pg "cnv") as [->|_].
  { destruct (Z.eqb_spec n 2) as [->|_]; [|discriminate].
    intros H; inversion H; auto. }
  destruct (String.eqb_spec pg "dn") as [->|_].
  { destruct (Z.eqb_spec n 3) as [->|_]; [|discriminate].
    intros H; inversion H; auto 6. }
  destruct (String.eqb_spec pg "dnh") as [->|_]; [|discriminate].
  destruct (Z.eqb_spec n 2) as [->|_].
  { intros H; inversion H; auto 8. }
  destruct (Z.eqb_spec n 6) as [->|_]; [|discriminate].
  intros H; inversion H; auto 10.
Qed.

Lemma tabulated_iff (g : PointGroup.t) :
  In g tabulated <-> exists t, _set_irreps g = Some t.
Proof.
  split.
  - unfold tabulated; simpl.
    intros [<-|[<-|[<-|[<-|[<-|[]]]]]]; eexists; reflexivity.
  - intros [t H].
    destruct (set_irreps_cases _ _ H) as [[-> _]|[[-> _]|[[-> _]|[[-> _]|[-> _]]]]];
      simpl; auto 10.
Qed.

(** Case analysis on a tabulated group and its table. *)
Ltac tabulated_cases H :=
  destruct (set_irreps_cases _ _ H)
    as [[-> ->]|[[-> ->]|[[-> ->]|[[-> ->]|[-> ->]]]]].

(** Case analysis on membership in an explicit list. *)
Ltac members H :=
  simpl in H;
  repeat match type of H with
         | _ \/ _ => destruct H as [H|H]
         | False => contradiction
         end.

Lemma table_pg (g : PointGroup.t) (t : Table) (x : Irrep.t) :
  _set_irreps g = Some t -> In x (values (elements t)) -> Irrep.pg x = g.
Proof.
  intros Ht Hx; tabulated_cases Ht; members Hx; subst x; reflexivity.
Qed.

Lemma table_distinct (g : PointGroup.t) (t : Table) :
  _set_irreps g = Some t -> distinct (values (elements t)) = true.
Proof. intros Ht; tabulated_cases Ht; vm_compute; reflexivity. Qed.

Lemma table_keys_NoDup (g : PointGroup.t) (t : Table) :
  _set_irreps g = Some t -> NoDup (map fst (elements t)).
Proof.
  intros Ht; tabulated_cases Ht; simpl;
    repeat (constructor; [simpl; intuition discriminate|]); constructor.
Qed.

Lemma table_lengths (g : PointGroup.t) (t : Table) (x : Irrep.t) :
  _set_irreps g = Some t -> In x (values (elements t)) ->
  List.length (Irrep.irrep x) = List.length (symop_multiplicity t).
Proof.
  intros Ht Hx; tabulated_cases Ht; members Hx; subst x; reflexivity.
Qed.

(** The invariant of the data model: the multiplicities sum to the order. *)
Lemma table_order (g : PointGroup.t) (t : Table) :
  _set_irreps g = Some t -> sum (symop_multiplicity t) = order t.
Proof. intros Ht; tabulated_cases Ht; reflexivity. Qed.

(** ** Lookup *)

(** On a group without table every attribute lookup that reaches
    [__getattr__] exhausts the recursion limit, whatever the limit. *)
Lemma getattr_unbound (depth : nat) (g : PointGroup.t) (symbol : string) :
  _set_irreps g = None -> __getattr__ depth g symbol = Raise RecursionError.
Proof.
  intros Hg; revert symbol.
  induction depth as [|d IH]; intros symbol; simpl; [reflexivity|].
  rewrite Hg, IH; reflexivity.
Qed.

Lemma getattr_bound (depth : nat) (g : PointGroup.t) (t : Table)
    (symbol : string) :
  _set_irreps g = Some t ->
  __getattr__ (S depth) g symbol =
    if has_key (lower symbol) (elements t)
    then irrep g (lower symbol)
    else Raise (unknown_symbol g (lower symbol)).
Proof.
  intros Hg; unfold irrep, attribute; simpl; rewrite Hg; reflexivity.
Qed.

Lemma find_key (els : list (string * Irrep.t)) (k : string) (x : Irrep.t) :
  NoDup (map fst els) -> In (k, x) els ->
  find (fun kv => String.eqb (fst kv) k) els = Some (k, x).
Proof.
  induction els as [|[k' x'] els IH]; simpl; [tauto|].
  intros Hnd [Heq|Hin].
  - inversion Heq; subst; now rewrite String.eqb_refl.
  - inversion Hnd as [|? ? Hk Hnd']; subst.
    destruct (String.eqb_spec k' k) as [->|_]; [|auto].
    exfalso; apply Hk; change k with (fst (k, x)); now apply in_map.
Qed.

Lemma has_key_In (els : list (string * Irrep.t)) (k : string) (x : Irrep.t) :
  In (k, x) els -> has_key k els = true.
Proof.
  intros H; apply existsb_exists; exists (k, x); split; [exact H|].
  apply String.eqb_refl.
Qed.

(** Calling the group with an unknown symbol ends in the [KeyError] of the
    underlying mapping. *)
Lemma call_unknown (g : PointGroup.t) (t : Table) (symbol : string) :
  _set_irreps g = Some t ->
  has_key (lower symbol) (elements t) = false ->
  __call__ g symbol = Raise (KeyError (lower symbol)).
Proof.
  intros Hg Hk; unfold __call__, irrep, attribute, getitem; rewrite Hg; simpl.
  destruct (find _ _) as [kv|] eqn:Hf; [|reflexivity].
  apply find_some in Hf; destruct Hf as [Hin Heq].
  unfold has_key in Hk.
  assert (existsb (fun kv => String.eqb (fst kv) (lower symbol)) (elements t) = true)
    by (apply existsb_exists; eauto).
  congruence.
Qed.

(** C4 (unsupported point group), evaluated on the code: building the
    untabulated group C2h returns a point group object without any error
    and without binding a table; every later lookup on it, by attribute or
    by call, ends in [RecursionError], which is no [LookupError] and not
    the [AttributeError] the class docstring announces either. *)
Theorem unsupported_group_is_constructed :
  exists g,
    __init__ "C2h" 1 = Ok g
    /\ _set_irreps g = None
    /\ (forall depth symbol, __getattr__ depth g symbol = Raise RecursionError)
    /\ (forall symbol, __call__ g symbol = Raise RecursionError)
    /\ isinstance RecursionError cLookupError = false
    /\ isinstance RecursionError cAttributeError = false.
Proof.
  exists C2h.
  split; [reflexivity|].
  split; [reflexivity|].
  split; [intros; apply getattr_unbound; reflexivity|].
  repeat split.
Qed.

(** C9 as stated fails: the error raised for the symbol x on D2h is an
    [AttributeError], which is not an instance of [LookupError]. *)
Lemma unknown_symbol_is_no_LookupError :
  ~ (exists e,
       (d2h <- named "D2h" ;; __getattr__ recursion_limit d2h "x") = Raise e
       /\ isinstance e cLookupError = true).
Proof.
  intros [e [Hraise Hclass]].
  vm_compute in Hraise.
  inversion Hraise; subst e.
  vm_compute in Hclass; discriminate.
Qed.

(** C9, amended: on a group with a table, looking up by attribute a symbol
    that is absent from the table (after lower-casing) raises the
    [AttributeError] "character ... does not exist in point group ...";
    a symbol that is present, in whatever case it is written, yields the
    irrep the table holds for it. *)
Theorem lookup_by_symbol (g : PointGroup.t) (t : Table) (depth : nat)
    (symbol : string) :
  _set_irreps g = Some t ->
  (has_key (lower symbol) (elements t) = false ->
     __getattr__ (S depth) g symbol = Raise (unknown_symbol g (lower symbol))
     /\ isinstance (unknown_symbol g (lower symbol)) cAttributeError = true)
  /\ (forall x, In (lower symbol, x) (elements t) ->
        __getattr__ (S depth) g symbol = Ok x).
Proof.
  intros Hg; rewrite (getattr_bound depth g t symbol Hg); split.
  - intros ->; split; reflexivity.
  - intros x Hin.
    rewrite (has_key_In _ _ _ Hin).
    unfold irrep, attribute, getitem; rewrite Hg; simpl.
    rewrite (find_key _ _ _ (table_keys_NoDup g t Hg) Hin); reflexivity.
Qed.

Lemma lookup_by_symbol_witness :
  (__getattr__ 1 D2h "x" = Raise (unknown_symbol D2h "x")
   /\ isinstance (unknown_symbol D2h "x") cAttributeError = true)
  /\ __getattr__ 1 D2h "B3U" = Ok D2h_b3u.
Proof.
  split.
  - apply (proj1 (lookup_by_symbol D2h (table_D2h D2h) 0 "x" eq_refl)).
    reflexivity.
  - apply (proj2 (lookup_by_symbol D2h (table_D2h D2h) 0 "B3U" eq_refl)).
    simpl; tauto.
Defined.

(** C8 as stated fails: raising b2g of D2h to the power 2.5 raises a
    [ValueError], which is not an instance of [TypeError]. *)
Lemma non_integer_exponent_is_no_TypeError :
  ~ (exists e,
       (d2h <- named "D2h" ;;
        b2g <- __getattr__ recursion_limit d2h "b2g" ;;
        __pow__ b2g (VFloat 2.5%float)) = Raise e
       /\ isinstance e cTypeError = true).
Proof.
  intros [e [Hraise Hclass]].
  vm_compute in Hraise.
  inversion Hraise; subst e.
  vm_compute in Hclass; discriminate.
Qed.

(** C8, amended: multiplying an irrep by a value that is neither an irrep
    nor a list raises a [TypeError]; raising an irrep to a power that is
    not an int raises a [ValueError]. *)
Theorem invalid_operand (self : Irrep.t) (other : value) :
  (no_factor other = true ->
     exists e, __mul__ self other = Raise e /\ isinstance e cTypeError = true)
  /\ (no_int other = true ->
        exists e, __pow__ self other = Raise e
                  /\ isinstance e cValueError = true).
Proof.
  split; intros H.
  - exists bad_factor; split; [|reflexivity].
    destruct other; simpl in *; try reflexivity; discriminate.
  - exists bad_exponent; split; [|reflexivity].
    destruct other; simpl in *; try reflexivity; discriminate.
Qed.

Lemma invalid_operand_witness :
  (exists e, __mul__ D2h_b2g (VInt 3) = Raise e
             /\ isinstance e cTypeError = true)
  /\ (exists e, __pow__ D2h_b2g (VStr "2") = Raise e
                /\ isinstance e cValueError = true).
Proof.
  split.
  - apply (proj1 (invalid_operand D2h_b2g (VInt 3))); reflexivity.
  - apply (proj2 (invalid_operand D2h_b2g (VStr "2"))); reflexivity.
Defined.

(** ** Products *)

Lemma positionwise_cons (x y : Z) (a b : list Z) :
  positionwise (x :: a) (y :: b) = x * y :: positionwise a b.
Proof.
  unfold positionwise; simpl.
  f_equal.
  rewrite <- seq_shift, map_map; reflexivity.
Qed.

(** The comprehension of [_irrep_product] computes the position-wise
    product. *)
Lemma irrep_product_positionwise (A B : Irrep.t) :
  Irrep._irrep_product A B = positionwise (Irrep.irrep A) (Irrep.irrep B).
Proof.
  unfold Irrep._irrep_product.
  generalize (Irrep.irrep B) as b; induction (Irrep.irrep A) as [|x a IH];
    intros b.
  - reflexivity.
  - destruct b as [|y b]; [reflexivity|].
    rewrite positionwise_cons; simpl; now rewrite IH.
Qed.

(** C6: when the two operands belong to the same group and are not both
    degenerate, the product is a single irrep of that group; its character
    vector is the position-wise product of theirs and its flag is the
    disjunction of theirs. *)
Theorem product_is_single (A B : Irrep.t) :
  PointGroup.__eq__ (Irrep.pg A) (Irrep.pg B) = true ->
  Irrep.degenerate A && Irrep.degenerate B = false ->
  exists C,
    __mul__ A (VIrrep B) = Ok (One C)
    /\ Irrep.pg C = Irrep.pg A
    /\ PointGroup.__eq__ (Irrep.pg C) (Irrep.pg B) = true
    /\ Irrep.irrep C = positionwise (Irrep.irrep A) (Irrep.irrep B)
    /\ Irrep.degenerate C = Irrep.degenerate A || Irrep.degenerate B.
Proof.
  intros Hpg Hdeg.
  eexists; split.
  - simpl; unfold mul_irrep; rewrite Hpg, Hdeg; reflexivity.
  - simpl; repeat split; auto using irrep_product_positionwise.
Qed.

Lemma product_is_single_witness :
  exists C,
    __mul__ D6h_e2u (VIrrep D6h_b1u) = Ok (One C)
    /\ Irrep.pg C = D6h
    /\ PointGroup.__eq__ (Irrep.pg C) D6h = true
    /\ Irrep.irrep C
       = positionwise (Irrep.irrep D6h_e2u) (Irrep.irrep D6h_b1u)
    /\ Irrep.degenerate C = true.
Proof.
  apply (product_is_single D6h_e2u D6h_b1u); reflexivity.
Defined.

Lemma combine_ones (a : list Z) (n : nat) :
  (List.length a <= n)%nat ->
  map (fun ab => fst ab * snd ab) (combine a (repeat 1 n)) = a.
Proof.
  revert n; induction a as [|x a IH]; intros n Hn; [reflexivity|].
  destruct n as [|n]; simpl in *; [lia|].
  rewrite IH by lia; f_equal; lia.
Qed.

(** The first entry of every table is the non-degenerate irrep whose
    characters are all 1. *)
Lemma ts_ones (g : PointGroup.t) (t : Table) :
  _set_irreps g = Some t ->
  ts g = Ok (Irrep.mk g (repeat 1 (List.length (symop_multiplicity t))) false)
  /\ head (values (elements t))
     = Some (Irrep.mk g (repeat 1 (List.length (symop_multiplicity t))) false).
Proof.
  intros Hg; unfold ts, attribute; rewrite Hg.
  tabulated_cases Hg; split; reflexivity.
Qed.

(** C5: the product of an irrep of a tabulated group with the totally
    symmetric irrep of that group, which is the first entry of its table,
    is that irrep again. *)
Theorem totally_symmetric_is_identity (g : PointGroup.t) (t : Table)
    (A : Irrep.t) :
  _set_irreps g = Some t ->
  In A (values (elements t)) ->
  exists s,
    ts g = Ok s
    /\ head (values (elements t)) = Some s
    /\ __mul__ A (VIrrep s) = Ok (One A)
    /\ (forall C, __mul__ A (VIrrep s) = Ok (One C) -> Irrep.__eq__ C A = true).
Proof.
  intros Hg HA.
  destruct (ts_ones g t Hg) as [Hts Hhead].
  eexists; split; [exact Hts|]; split; [exact Hhead|].
  assert (Hmul : __mul__ A (VIrrep (Irrep.mk g
                   (repeat 1 (List.length (symop_multiplicity t))) false))
                 = Ok (One A)).
  { pose proof (table_pg g t A Hg HA) as Hpg.
    pose proof (table_lengths g t A Hg HA) as Hlen.
    simpl; unfold mul_irrep, Irrep._irrep_product; simpl.
    rewrite (proj2 (pointgroup_eq_spec _ _) Hpg).
    rewrite andb_false_r, orb_false_r, combine_ones by lia.
    rewrite Hpg; destruct A; simpl in *; subst; reflexivity. }
  split; [exact Hmul|].
  intros C HC; rewrite Hmul in HC; inversion HC; apply irrep_eq_refl.
Qed.

Lemma totally_symmetric_is_identity_witness :
  exists s,
    ts D2h = Ok s
    /\ head (values (elements (table_D2h D2h))) = Some s
    /\ __mul__ D2h_b3u (VIrrep s) = Ok (One D2h_b3u)
    /\ (forall C, __mul__ D2h_b3u (VIrrep s) = Ok (One C) ->
                  Irrep.__eq__ C D2h_b3u = true).
Proof.
  apply (totally_symmetric_is_identity D2h (table_D2h D2h) D2h_b3u).
  - reflexivity.
  - simpl; tauto.
Defined.

(** ** Powers *)

Lemma bind_Ok {A : Type} (m : result A) : (x <- m ;; Ok x) = m.
Proof. destruct m; reflexivity. Qed.

Lemma bind_assoc {A B C : Type} (m : result A) (f : A -> result B)
    (h : B -> result C) :
  (y <- (x <- m ;; f x) ;; h y) = (x <- m ;; y <- f x ;; h y).
Proof. destruct m; reflexivity. Qed.

Lemma reduce_snoc {A B : Type} (f : A -> B -> result A) (l : list B)
    (acc : A) (x : B) :
  reduce f acc (l ++ [x]) = (r <- reduce f acc l ;; f r x).
Proof.
  revert acc; induction l as [|y l IH]; intros acc; simpl.
  - apply bind_Ok.
  - destruct (f acc y) as [acc'|e]; simpl; [apply IH | reflexivity].
Qed.

(** For an exponent of at least 2 the power is the fold of [mul] over the
    remaining copies of the irrep. *)
Lemma pow_reduce (A : Irrep.t) (n : nat) :
  __pow__ A (VInt (Z.of_nat (S (S n))))
  = reduce mul (One A) (repeat A (S n)).
Proof.
  unfold __pow__.
  destruct (Z.ltb_spec (Z.of_nat (S (S n))) 2) as [H|_]; [lia|].
  rewrite Nat2Z.id; reflexivity.
Qed.

(** C7: an exponent below 2, zero and the negative integers included,
    gives the irrep back unchanged; the exponent 2 gives the product of
    the irrep with itself; and each further unit of the exponent
    multiplies the power obtained so far, an irrep or a list, once more by
    the irrep on the right. *)
Theorem power_is_iterated_product (A : Irrep.t) (k : Z) :
  (k < 2 -> __pow__ A (VInt k) = Ok (One A))
  /\ (k = 2 -> __pow__ A (VInt k) = __mul__ A (VIrrep A))
  /\ (2 <= k ->
      __pow__ A (VInt (k + 1)) = (p <- __pow__ A (VInt k) ;; mul p A)).
Proof.
  split; [|split].
  - intros Hk; unfold __pow__.
    destruct (Z.ltb_spec k 2); [reflexivity | lia].
  - intros ->; change 2 with (Z.of_nat 2).
    rewrite pow_reduce; simpl.
    apply bind_Ok.
  - intros Hk.
    assert (Hn : exists n, k = Z.of_nat (S (S n))).
    { exists (Z.to_nat (k - 2)); lia. }
    destruct Hn as [n ->].
    replace (Z.of_nat (S (S n)) + 1) with (Z.of_nat (S (S (S n)))) by lia.
    rewrite !pow_reduce.
    change (repeat A (S (S n))) with (A :: repeat A (S n)).
    rewrite repeat_cons.
    apply reduce_snoc.
Qed.

Lemma power_is_iterated_product_witness :
  __pow__ D6h_e1g (VInt (-1)) = Ok (One D6h_e1g)
  /\ __pow__ D6h_e1g (VInt 2) = __mul__ D6h_e1g (VIrrep D6h_e1g)
  /\ __pow__ D6h_e1g (VInt 3)
     = (p <- __pow__ D6h_e1g (VInt 2) ;; mul p D6h_e1g).
Proof.
  split; [|split].
  - apply (proj1 (power_is_iterated_product D6h_e1g (-1))); lia.
  - apply (proj1 (proj2 (power_is_iterated_product D6h_e1g 2))); reflexivity.
  - apply (proj2 (proj2 (power_is_iterated_product D6h_e1g 2))); lia.
Defined.

(** ** Ordering *)

(** The loop of [__lt__] answers by comparing table positions. *)
Lemma lt_loop_position (self other : Irrep.t) (vals : list Irrep.t)
    (i j : nat) :
  position self vals = Some i -> position other vals = Some j ->
  lt_loop self other vals = Some (i <=? j)%nat.
Proof.
  revert i j; induction vals as [|irrep rest IH]; intros i j; simpl.
  - discriminate.
  - destruct (Irrep.__eq__ irrep self).
    + intros Hi _; inversion Hi; reflexivity.
    + destruct (Irrep.__eq__ irrep other).
      * destruct (position self rest); simpl; [|discriminate].
        intros Hi Hj; inversion Hi; inversion Hj; reflexivity.
      * destruct (position self rest) as [i'|]; [|discriminate].
        destruct (position other rest) as [j'|]; [|discriminate].
        simpl; intros Hi Hj; inversion Hi; inversion Hj; subst.
        now rewrite (IH i' j').
Qed.

(** In a table without repeated entries the position of the entry at
    index [i] is [i]. *)
Lemma position_nth (vals : list Irrep.t) (i : nat) (x : Irrep.t) :
  distinct vals = true -> nth_error vals i = Some x ->
  position x vals = Some i.
Proof.
  revert i; induction vals as [|irrep rest IH]; intros i Hd Hi.
  - destruct i; discriminate.
  - simpl in Hd; apply andb_true_iff in Hd; destruct Hd as [Hhead Hrest].
    destruct i as [|i]; simpl in *.
    + inversion Hi; subst; now rewrite irrep_eq_refl.
    + rewrite forallb_forall in Hhead.
      pose proof (Hhead x (nth_error_In _ _ Hi)) as Hne.
      apply negb_true_iff in Hne; rewrite Hne.
      now rewrite (IH i Hrest Hi).
Qed.

Lemma lt_by_index (g : PointGroup.t) (t : Table) (i j : nat)
    (A B : Irrep.t) :
  _set_irreps g = Some t ->
  nth_error (values (elements t)) i = Some A ->
  nth_error (values (elements t)) j = Some B ->
  __lt__ A B = Ok (Some (i <=? j)%nat).
Proof.
  intros Hg HA HB.
  unfold __lt__, attribute.
  rewrite (table_pg g t A Hg (nth_error_In _ _ HA)), Hg; simpl.
  pose proof (table_distinct g t Hg) as Hd.
  now rewrite (lt_loop_position A B _ i j
                 (position_nth _ _ _ Hd HA) (position_nth _ _ _ Hd HB)).
Qed.

(** C10: between two irreps of a tabulated group, found at the indices
    [i] and [j] of its table, [A < B] returns whether [i <= j]; hence
    [A < A] returns true and the comparison is not irreflexive. *)
Theorem less_than_is_position_le (g : PointGroup.t) (t : Table) (i j : nat)
    (A B : Irrep.t) :
  _set_irreps g = Some t ->
  nth_error (values (elements t)) i = Some A ->
  nth_error (values (elements t)) j = Some B ->
  __lt__ A B = Ok (Some (i <=? j)%nat)
  /\ (__lt__ A B = Ok (Some true) <-> (i <= j)%nat)
  /\ __lt__ A A = Ok (Some true).
Proof.
  intros Hg HA HB.
  rewrite (lt_by_index g t i j A B Hg HA HB).
  rewrite (lt_by_index g t i i A A Hg HA HA), Nat.leb_refl.
  repeat split.
  - intros H; inversion H as [Hle]; now apply Nat.leb_le.
  - intros H; apply Nat.leb_le in H; now rewrite H.
Qed.

Lemma less_than_is_position_le_witness :
  __lt__ D6h_e1g D6h_b1g = Ok (Some (4 <=? 2)%nat)
  /\ (__lt__ D6h_e1g D6h_b1g = Ok (Some true) <-> (4 <= 2)%nat)
  /\ __lt__ D6h_e1g D6h_e1g = Ok (Some true).
Proof.
  apply (less_than_is_position_le D6h (table_D6h D6h) 4 2 D6h_e1g D6h_b1g);
    reflexivity.
Defined.

(** *** Sorting irreps of one tabulated group *)

Section Sorting.

Variables (g : PointGroup.t) (t : Table).
Hypothesis Hg : _set_irreps g = Some t.

#[local] Abbreviation vals := (values (elements t)).
#[local] Abbreviation le := (precedes vals).

Lemma rank_index (x : Irrep.t) :
  In x vals -> nth_error vals (rank vals x) = Some x.
Proof.
  intros Hx; destruct (In_nth_error _ _ Hx) as [i Hi].
  unfold rank.
  now rewrite (position_nth _ _ _ (table_distinct g t Hg) Hi).
Qed.

Lemma lt_rank (x y : Irrep.t) :
  In x vals -> In y vals ->
  __lt__ x y = Ok (Some (rank vals x <=? rank vals y)%nat).
Proof.
  intros Hx Hy.
  exact (lt_by_index g t _ _ x y Hg (rank_index x Hx) (rank_index y Hy)).
Qed.

Lemma insert_spec (x : Irrep.t) (l : list Irrep.t) :
  In x vals -> Forall (fun y => In y vals) l ->
  exists l',
    insert x l = Ok l'
    /\ Permutation l' (x :: l)
    /\ (forall a, le a x -> HdRel le a l -> HdRel le a l')
    /\ (Sorted le l -> Sorted le l').
Proof.
  intros Hx; induction l as [|y l IH]; intros Hl.
  - exists [x]; simpl; repeat split; auto.
  - inversion Hl as [|? ? Hy Hl']; subst.
    simpl; rewrite (lt_rank x y Hx Hy); simpl.
    destruct (Nat.leb_spec (rank vals x) (rank vals y)) as [Hle|Hgt].
    + exists (x :: y :: l); repeat split; auto.
    + destruct (IH Hl') as [l' [Hins [Hperm [Hhd Hsorted]]]].
      rewrite Hins; simpl.
      exists (y :: l'); repeat split.
      * rewrite Hperm; apply perm_swap.
      * intros a _ Ha; inversion Ha; subst; auto.
      * intros Hs; inversion Hs as [|? ? Hs' Hhd']; subst.
        constructor; [auto|].
        apply Hhd; [unfold precedes; lia | exact Hhd'].
Qed.

Lemma sort_into_spec (l sorted : list Irrep.t) :
  Forall (fun y => In y vals) sorted -> Forall (fun y => In y vals) l ->
  Sorted le sorted ->
  exists l',
    sort_into sorted l = Ok l'
    /\ Permutation l' (sorted ++ l)
    /\ Sorted le l'.
Proof.
  revert sorted; induction l as [|x l IH]; intros sorted Hs Hl Hsorted.
  - exists sorted; rewrite app_nil_r; auto.
  - inversion Hl as [|? ? Hx Hl']; subst.
    destruct (insert_spec x sorted Hx Hs) as [s' [Hins [Hperm [_ Hs']]]].
    simpl; rewrite Hins; simpl.
    destruct (IH s') as [l' [Hsort [Hperm' Hsorted']]]; auto.
    { rewrite Forall_forall in *; intros y Hy.
      apply (Permutation_in _ Hperm) in Hy; destruct Hy; subst; auto. }
    exists l'; repeat split; auto.
    rewrite Hperm', Hperm; simpl.
    apply Permutation_middle.
Qed.

(** Sorting returns the items it was given, in canonical order. *)
Lemma sort_spec (l : list Irrep.t) :
  Forall (fun y => In y vals) l ->
  exists l', sort l = Ok l' /\ Permutation l' l /\ canonical vals l'.
Proof.
  intros Hl.
  destruct (sort_into_spec l [] (Forall_nil _) Hl (Sorted_nil _))
    as [l' [Hsort [Hperm Hsorted]]].
  exists l'; auto.
Qed.

Lemma rank_inj (x y : Irrep.t) :
  In x vals -> In y vals -> rank vals x = rank vals y -> x = y.
Proof.
  intros Hx Hy Heq.
  pose proof (rank_index x Hx) as Hix.
  pose proof (rank_index y Hy) as Hiy.
  rewrite Heq in Hix; congruence.
Qed.

Lemma le_transitive : Relations_1.Transitive le.
Proof. intros x y z; unfold precedes; lia. Qed.

(** A list of table irreps has one canonical arrangement only, so the
    outcome of a sort does not depend on how the sort proceeds. *)
Lemma canonical_unique (l1 l2 : list Irrep.t) :
  Forall (fun y => In y vals) l1 -> Permutation l1 l2 ->
  canonical vals l1 -> canonical vals l2 -> l1 = l2.
Proof.
  unfold canonical.
  intros Hin Hperm H1 H2.
  apply (Sorted_StronglySorted le_transitive) in H1, H2.
  revert l2 Hperm H2; induction H1 as [|x l1 Hs1 IH Hx]; intros l2 Hperm H2.
  - apply Permutation_nil in Hperm; now subst.
  - destruct l2 as [|y l2];
      [apply Permutation_sym, Permutation_nil in Hperm; discriminate|].
    inversion H2 as [|? ? Hs2 Hy]; subst.
    inversion Hin as [|? ? Hxin Hin']; subst.
    assert (Hyin : In y vals).
    { rewrite Forall_forall in Hin.
      apply Hin, (Permutation_in _ (Permutation_sym Hperm)); now left. }
    assert (Hxy : x = y).
    { apply rank_inj; auto.
      assert (le x y).
      { pose proof (Permutation_in _ (Permutation_sym Hperm) (or_introl eq_refl))
          as [->|Hyl1]; [unfold precedes; lia|].
        rewrite Forall_forall in Hx; auto. }
      assert (le y x).
      { pose proof (Permutation_in _ Hperm (or_introl eq_refl))
          as [->|Hxl2]; [unfold precedes; lia|].
        rewrite Forall_forall in Hy; auto. }
      unfold le in *; lia. }
    subst y; f_equal.
    apply IH; auto.
    now apply Permutation_cons_inv in Hperm.
Qed.

End Sorting.

(** ** Sums *)

(** C3: the doctest expression on D6h evaluates to the seven irreps a1g,
    b1g, b2g, e1g, e1g, e1g, e2u in this order; and in a tabulated group
    the sum of two operands of which at least one is an irrep, the other
    an irrep or a list of irreps, is a list holding exactly the items of
    both, nothing merged or dropped, in canonical table order. *)
Theorem sum_is_sorted_union :
  (exists l,
     d6h_expression = Ok (Many l)
     /\ d6h_irreps ["a1g"; "b1g"; "b2g"; "e1g"; "e1g"; "e1g"; "e2u"] = Ok l
     /\ l = [D6h_a1g; D6h_b1g; D6h_b2g; D6h_e1g; D6h_e1g; D6h_e1g; D6h_e2u]
     /\ List.length l = 7%nat)
  /\ (forall (g : PointGroup.t) (t : Table) (x y : irreps),
        _set_irreps g = Some t ->
        is_one x || is_one y = true ->
        Forall (fun a => In a (values (elements t))) (items x) ->
        Forall (fun a => In a (values (elements t))) (items y) ->
        exists l,
          add x y = Ok (Many l)
          /\ Permutation l (items x ++ items y)
          /\ canonical (values (elements t)) l).
Proof.
  split.
  - eexists; split; [vm_compute; reflexivity|].
    split; [vm_compute; reflexivity|].
    split; reflexivity.
  - intros g t x y Hg Hone Hx Hy.
    assert (Hxy : Forall (fun a => In a (values (elements t)))
                         (items x ++ items y))
      by (apply Forall_app; auto).
    destruct x as [a|l1], y as [b|l2]; simpl in Hone; try discriminate;
      destruct (sort_spec g t Hg _ Hxy) as [l [Hsort [Hperm Hcan]]];
      simpl in Hsort; exists l; simpl;
      unfold __add__; simpl; rewrite Hsort; auto.
Qed.

Lemma sum_is_sorted_union_witness :
  exists l,
    add (One D6h_e2u) (Many [D6h_b1g; D6h_e1g; D6h_e1g]) = Ok (Many l)
    /\ Permutation l ([D6h_e2u] ++ [D6h_b1g; D6h_e1g; D6h_e1g])
    /\ canonical (values (elements (table_D6h D6h))) l.
Proof.
  apply (proj2 sum_is_sorted_union D6h (table_D6h D6h)
           (One D6h_e2u) (Many [D6h_b1g; D6h_e1g; D6h_e1g])).
  - reflexivity.
  - reflexivity.
  - repeat constructor; simpl; tauto.
  - repeat constructor; simpl; tauto.
Defined.

(** ** Reduction of the product of two degenerate irreps *)

(** Wherever the algebra starts from table entries it stays among them:
    the product of two entries of a table consists of entries of that
    table, flag included. *)
Lemma product_stays_in_table (g : PointGroup.t) (t : Table) (A B : Irrep.t) :
  _set_irreps g = Some t ->
  In A (values (elements t)) -> In B (values (elements t)) ->
  exists r,
    __mul__ A (VIrrep B) = Ok r
    /\ Forall (fun x => In x (values (elements t))) (items r).
Proof.
  intros Hg HA HB.
  assert (Hall :
    forallb (fun a => forallb (fun b =>
      match mul_irrep a b with
      | Ok r => forallb (fun x => existsb (same x) (values (elements t)))
                        (items r)
      | Raise _ => false
      end) (values (elements t))) (values (elements t)) = true)
    by (tabulated_cases Hg; vm_compute; reflexivity).
  rewrite forallb_forall in Hall; specialize (Hall A HA).
  rewrite forallb_forall in Hall; specialize (Hall B HB).
  simpl; destruct (mul_irrep A B) as [r|e]; [|discriminate].
  exists r; split; [reflexivity|].
  rewrite forallb_forall in Hall; apply Forall_forall; intros x Hx.
  specialize (Hall x Hx); apply existsb_exists in Hall.
  destruct Hall as [y [Hy Hsame]].
  apply same_spec in Hsame; now subst.
Qed.

(** C1: for two degenerate irreps of a tabulated group the product is the
    list the reduction formula describes: each irrep [R] of the table, in
    table order, as many times as its coefficient
    [a_R = (1/order) * sum_i multiplicity_i * R_i * product_i] says and not
    at all when that is 0, the whole in canonical order; the division by
    the order is exact for every [R]. *)
Theorem degenerate_product_is_decomposition (g : PointGroup.t) (t : Table)
    (A B : Irrep.t) :
  _set_irreps g = Some t ->
  In A (values (elements t)) -> In B (values (elements t)) ->
  Irrep.degenerate A = true -> Irrep.degenerate B = true ->
  __mul__ A (VIrrep B) = Ok (Many (decomposition t A B))
  /\ canonical (values (elements t)) (decomposition t A B)
  /\ (forall R, In R (values (elements t)) ->
        reduction_sum t R (positionwise (Irrep.irrep A) (Irrep.irrep B))
        mod order t = 0).
Proof.
  intros Hg HA HB HdA HdB.
  tabulated_cases Hg;
    members HA; subst A; try discriminate HdA;
    members HB; subst B; try discriminate HdB;
    (split; [vm_compute; reflexivity|]);
    (split; [repeat constructor|]);
    intros R HR; members HR; subst R; vm_compute; reflexivity.
Qed.

Lemma degenerate_product_is_decomposition_witness :
  __mul__ D6h_e1g (VIrrep D6h_e2u)
    = Ok (Many (decomposition (table_D6h D6h) D6h_e1g D6h_e2u))
  /\ canonical (values (elements (table_D6h D6h)))
               (decomposition (table_D6h D6h) D6h_e1g D6h_e2u)
  /\ (forall R, In R (values (elements (table_D6h D6h))) ->
        reduction_sum (table_D6h D6h) R
          (positionwise (Irrep.irrep D6h_e1g) (Irrep.irrep D6h_e2u))
        mod order (table_D6h D6h) = 0).
Proof.
  apply (degenerate_product_is_decomposition D6h (table_D6h D6h)
           D6h_e1g D6h_e2u);
    try reflexivity; simpl; tauto.
Defined.

(** C2: for two degenerate irreps of a tabulated group the list [ai] of
    coefficients that [__mul__] computes has one entry per table irrep;
    each entry is a non-negative integer, equal to the exact quotient of
    the reduction sum by the order; and the coefficients weighted by the
    characters at the identity class add up to the product of the two
    operands' characters there. *)
Theorem coefficients_are_multiplicities (g : PointGroup.t) (t : Table)
    (A B : Irrep.t) :
  _set_irreps g = Some t ->
  In A (values (elements t)) -> In B (values (elements t)) ->
  Irrep.degenerate A = true -> Irrep.degenerate B = true ->
  exists ai,
    coefficients (order t) (symop_multiplicity t) (values (elements t))
                 (Irrep._irrep_product A B) = Ok ai
    /\ Forall2 (fun a R =>
                  0 <= a
                  /\ a * order t
                     = reduction_sum t R
                         (positionwise (Irrep.irrep A) (Irrep.irrep B)))
               ai (values (elements t))
    /\ sum (map (fun aR => fst aR * nth 0 (Irrep.irrep (snd aR)) 0)
                (combine ai (values (elements t))))
       = nth 0 (Irrep.irrep A) 0 * nth 0 (Irrep.irrep B) 0.
Proof.
  intros Hg HA HB HdA HdB.
  tabulated_cases Hg;
    members HA; subst A; try discriminate HdA;
    members HB; subst B; try discriminate HdB;
    (eexists; split; [vm_compute; reflexivity|]);
    (split; [|vm_compute; reflexivity]);
    repeat (constructor; [split; [discriminate | vm_compute; reflexivity]|]);
    constructor.
Qed.

Lemma coefficients_are_multiplicities_witness :
  exists ai,
    coefficients (order (table_D3 D3)) (symop_multiplicity (table_D3 D3))
                 (values (elements (table_D3 D3)))
                 (Irrep._irrep_product (Irrep.mk D3 [2;-1; 0] true)
                                       (Irrep.mk D3 [2;-1; 0] true)) = Ok ai
    /\ Forall2 (fun a R =>
                  0 <= a
                  /\ a * order (table_D3 D3)
                     = reduction_sum (table_D3 D3) R
                         (positionwise [2;-1; 0] [2;-1; 0]))
               ai (values (elements (table_D3 D3)))
    /\ sum (map (fun aR => fst aR * nth 0 (Irrep.irrep (snd aR)) 0)
                (combine ai (values (elements (table_D3 D3)))))
       = 2 * 2.
Proof.
  apply (coefficients_are_multiplicities D3 (table_D3 D3)
           (Irrep.mk D3 [2;-1; 0] true) (Irrep.mk D3 [2;-1; 0] true));
    try reflexivity; simpl; tauto.
Defined.

(** Outside the tables the code and the reduction formula part ways: for
    the reducible character (2, 2, 0) on D3, flagged degenerate by hand,
    the coefficient of e is 2 while [__mul__] lists e once. *)
Remark reducible_character_listed_once :
  let a1_a2 := Irrep.mk D3 [2; 2; 0] true in
  let e := Irrep.mk D3 [2;-1; 0] true in
  __mul__ a1_a2 (VIrrep e) = Ok (Many [e])
  /\ decomposition (table_D3 D3) a1_a2 e = [e; e].
Proof. split; vm_compute; reflexivity. Qed.

(** ** The operators as the interpreter dispatches them *)

(** The list branch of [__mul__] is the comprehension
    [[self*irrep for irrep in other]], flattened and sorted. *)
Fact mul_list (self : Irrep.t) (others : list value) :
  __mul__ self (VList others)
  = (products <- comprehension (__mul__ self) others ;;
     all_products <- sort (flatten products) ;;
     Ok (Many all_products)).
Proof.
  simpl; f_equal.
  induction others as [|x rest IH]; simpl; [reflexivity|].
  now rewrite IH.
Qed.

(** [flatten] leaves a flat list of irreps as it is. *)
Fact flatten_irreps_id (items : list Irrep.t) : flatten_irreps items = items.
Proof. induction items as [|x rest IH]; simpl; congruence. Qed.

(** [list * irrep] is the [__rmul__] of the irrep, that is [irrep * list]. *)
Fact mul_list_irrep (l : list Irrep.t) (y : Irrep.t) :
  __rmul__ y (VList (map VIrrep l)) = (r <- mul (Many l) y ;; Ok (Some r)).
Proof. reflexivity. Qed.

(** [list + irrep] is the [__radd__] of the irrep. *)
Fact add_list_irrep (l : list Irrep.t) (y : Irrep.t) :
  __radd__ y (Many l)
  = (r <- add (Many l) (One y) ;; Ok (Some (items r))).
Proof. simpl; destruct (sort (l ++ [y])); reflexivity. Qed.

(** ** The doctests of the module *)

Example doctest_str_D6h :
  (d6h <- __init__ "D6h" 1 ;; Ok (PointGroup.__str__ d6h)) = Ok "D6h".
Proof. reflexivity. Qed.

Example doctest_b2g_b1u :
  (d2h <- named "D2h" ;;
   b2g <- __getattr__ recursion_limit d2h "b2g" ;;
   b1u <- __getattr__ recursion_limit d2h "b1u" ;;
   b2g_b1u <- __mul__ b2g (VIrrep b1u) ;;
   comprehension __str__ (items b2g_b1u)) = Ok ["b3u"].
Proof. vm_compute; reflexivity. Qed.

Example doctest_b2g_squared :
  (d2h <- named "D2h" ;;
   b2g <- __getattr__ recursion_limit d2h "b2g" ;;
   square <- __pow__ b2g (VInt 2) ;;
   comprehension __str__ (items square)) = Ok ["ag"].
Proof. vm_compute; reflexivity. Qed.

Example doctest_e1g_squared :
  (d6h <- __init__ "D6h" 1 ;;
   e1g <- __getattr__ recursion_limit d6h "e1g" ;;
   square <- __pow__ e1g (VInt 2) ;;
   comprehension __str__ (items square)) = Ok ["a1g"; "a2g"; "e2g"].
Proof. vm_compute; reflexivity. Qed.

Example doctest_d6h_expression :
  (product <- d6h_expression ;; comprehension __str__ (items product))
  = Ok ["a1g"; "b1g"; "b2g"; "e1g"; "e1g"; "e1g"; "e2u"].
Proof. vm_compute; reflexivity. Qed.

(** * Further properties of the code *)

(** ** Products across and within groups *)

(** Irreps of two different point groups are never multiplied: either
    order of the operands raises [NotImplementedError], and so does a list
    operand that starts with the foreign irrep. *)
Theorem product_across_groups (A B : Irrep.t) (rest : list value) :
  PointGroup.__eq__ (Irrep.pg A) (Irrep.pg B) = false ->
  __mul__ A (VIrrep B) = Raise (different_groups (Irrep.pg A) (Irrep.pg B))
  /\ __mul__ B (VIrrep A) = Raise (different_groups (Irrep.pg B) (Irrep.pg A))
  /\ __mul__ A (VList (VIrrep B :: rest))
     = Raise (different_groups (Irrep.pg A) (Irrep.pg B))
  /\ isinstance (different_groups (Irrep.pg A) (Irrep.pg B))
                cNotImplementedError = true.
Proof.
  intros Hne.
  assert (Hne' : PointGroup.__eq__ (Irrep.pg B) (Irrep.pg A) = false).
  { destruct (PointGroup.__eq__ (Irrep.pg B) (Irrep.pg A)) eqn:E; [|reflexivity].
    apply pointgroup_eq_spec in E.
    rewrite E in Hne.
    now rewrite (proj2 (pointgroup_eq_spec _ _) eq_refl) in Hne. }
  repeat split; simpl; unfold mul_irrep;
    rewrite ?Hne, ?Hne'; reflexivity.
Qed.

Lemma product_across_groups_witness :
  __mul__ D2h_b2g (VIrrep D6h_e1g)
    = Raise (different_groups D2h D6h)
  /\ __mul__ D6h_e1g (VIrrep D2h_b2g)
     = Raise (different_groups D6h D2h)
  /\ __mul__ D2h_b2g (VList [VIrrep D6h_e1g; VInt 3])
     = Raise (different_groups D2h D6h)
  /\ isinstance (different_groups D2h D6h) cNotImplementedError = true.
Proof.
  apply (product_across_groups D2h_b2g D6h_e1g [VInt 3]); reflexivity.
Defined.

Lemma irrep_product_comm (A B : Irrep.t) :
  Irrep._irrep_product A B = Irrep._irrep_product B A.
Proof.
  unfold Irrep._irrep_product.
  generalize (Irrep.irrep B) as b; induction (Irrep.irrep A) as [|x a IH];
    intros [|y b]; simpl; try reflexivity.
  rewrite IH; f_equal; lia.
Qed.

(** Within one point group the product of two irreps does not depend on
    the order of the operands, whether it is a single irrep or a list. *)
Theorem product_commutes (A B : Irrep.t) :
  PointGroup.__eq__ (Irrep.pg A) (Irrep.pg B) = true ->
  __mul__ A (VIrrep B) = __mul__ B (VIrrep A).
Proof.
  intros Heq.
  pose proof (proj1 (pointgroup_eq_spec _ _) Heq) as Hpg.
  cbn [__mul__]; unfold mul_irrep.
  rewrite <- Hpg, (irrep_product_comm B A).
  rewrite (andb_comm (Irrep.degenerate B)), (orb_comm (Irrep.degenerate B)).
  reflexivity.
Qed.

Lemma product_commutes_witness :
  __mul__ D6h_e1g (VIrrep D6h_e2u) = __mul__ D6h_e2u (VIrrep D6h_e1g).
Proof.
  apply (product_commutes D6h_e1g D6h_e2u); reflexivity.
Defined.

(** ** Symbols and irreps *)

Lemma find_value (els : list (string * Irrep.t)) (k : string) (x : Irrep.t) :
  distinct (values els) = true -> In (k, x) els ->
  find (fun kv => Irrep.__eq__ (snd kv) x) els = Some (k, x).
Proof.
  induction els as [|[k' x'] els IH]; simpl; [tauto|].
  intros Hd [Heq|Hin].
  - inversion Heq; subst; now rewrite irrep_eq_refl.
  - apply andb_true_iff in Hd; destruct Hd as [Hhead Hrest].
    rewrite forallb_forall in Hhead.
    assert (Hx : In x (values els))
      by (change x with (snd (k, x)); now apply in_map).
    pose proof (Hhead x Hx) as Hne; apply negb_true_iff in Hne.
    rewrite Hne; auto.
Qed.

Lemma getitem_In (els : list (string * Irrep.t)) (k : string) (x : Irrep.t) :
  getitem els k = Ok x -> In (k, x) els.
Proof.
  unfold getitem; destruct (find _ els) as [[k' x']|] eqn:Hf; [|discriminate].
  intros H; inversion H; subst.
  apply find_some in Hf; destruct Hf as [Hin Hk]; simpl in Hk.
  apply String.eqb_eq in Hk; now subst.
Qed.

Lemma entry_names (g : PointGroup.t) (t : Table) (k : string) (x : Irrep.t) :
  _set_irreps g = Some t -> In (k, x) (elements t) ->
  irrep g k = Ok x /\ symbol g x = Ok k /\ __str__ x = Ok k.
Proof.
  intros Hg Hin.
  assert (Hsym : symbol g x = Ok k).
  { unfold symbol, attribute, inv_getitem; rewrite Hg; simpl.
    now rewrite (find_value _ _ _ (table_distinct g t Hg) Hin). }
  repeat split; auto.
  - unfold irrep, attribute, getitem; rewrite Hg; simpl.
    now rewrite (find_key _ _ _ (table_keys_NoDup g t Hg) Hin).
  - unfold __str__.
    assert (Hx : In x (values (elements t)))
      by (change x with (snd (k, x)); now apply in_map).
    now rewrite (table_pg g t x Hg Hx).
Qed.

(** In a tabulated group symbols and irreps determine each other: the
    irrep stored under a symbol is found by [irrep] and named back by
    [symbol] and by [str]; so the irrep obtained by attribute lookup,
    however the symbol was capitalised, prints as the lower-case symbol. *)
Theorem symbol_irrep_round_trip (g : PointGroup.t) (t : Table) :
  _set_irreps g = Some t ->
  (forall k x, In (k, x) (elements t) ->
     irrep g k = Ok x /\ symbol g x = Ok k /\ __str__ x = Ok k)
  /\ (forall depth s x, __getattr__ depth g s = Ok x ->
        __str__ x = Ok (lower s)).
Proof.
  intros Hg; split; [intros k x; now apply entry_names|].
  intros [|depth] s x Hget; [discriminate|].
  rewrite (getattr_bound depth g t s Hg) in Hget.
  destruct (has_key (lower s) (elements t)); [|discriminate].
  unfold irrep, attribute in Hget; rewrite Hg in Hget; simpl in Hget.
  apply getitem_In in Hget.
  apply (entry_names g t _ _ Hg Hget).
Qed.

Lemma symbol_irrep_round_trip_witness :
  (forall k x, In (k, x) (elements (table_D2h D2h)) ->
     irrep D2h k = Ok x /\ symbol D2h x = Ok k /\ __str__ x = Ok k)
  /\ (forall depth s x, __getattr__ depth D2h s = Ok x ->
        __str__ x = Ok (lower s)).
Proof.
  apply (symbol_irrep_round_trip D2h (table_D2h D2h)); reflexivity.
Defined.

(** An irrep that equals no entry of the table, one of another point
    group in particular, has no symbol in the group: [symbol] raises a
    [KeyError]. *)
Theorem symbol_of_foreign_irrep (g : PointGroup.t) (t : Table) (x : Irrep.t) :
  _set_irreps g = Some t ->
  (Irrep.pg x <> g
   \/ forall y, In y (values (elements t)) -> Irrep.__eq__ y x = false) ->
  exists e,
    symbol g x = Raise e
    /\ isinstance e cKeyError = true
    /\ isinstance e cLookupError = true.
Proof.
  intros Hg Hx.
  assert (Hnone : forall y, In y (values (elements t)) ->
                            Irrep.__eq__ y x = false).
  { destruct Hx as [Hpg|Hall]; [|exact Hall].
    intros y Hy.
    destruct (Irrep.__eq__ y x) eqn:E; [|reflexivity].
    apply irrep_eq_spec in E; destruct E as [E _].
    rewrite (table_pg g t y Hg Hy) in E; congruence. }
  exists (KeyError "irrep"); split; [|split; reflexivity].
  unfold symbol, attribute, inv_getitem; rewrite Hg; simpl.
  destruct (find _ (elements t)) as [kv|] eqn:Hf; [|reflexivity].
  apply find_some in Hf; destruct Hf as [Hin Heq].
  rewrite (Hnone (snd kv)) in Heq; [discriminate|].
  now apply in_map.
Qed.

Lemma symbol_of_foreign_irrep_witness :
  exists e,
    symbol D2h D6h_e1g = Raise e
    /\ isinstance e cKeyError = true
    /\ isinstance e cLookupError = true.
Proof.
  apply (symbol_of_foreign_irrep D2h (table_D2h D2h) D6h_e1g).
  - reflexivity.
  - left; discriminate.
Defined.

(** Calling a tabulated group with a symbol: a present symbol, in whatever
    case, gives the irrep that attribute lookup gives; an absent one
    raises the [KeyError] of the mapping, a [LookupError], where attribute
    lookup raises [AttributeError]. *)
Theorem lookup_by_call (g : PointGroup.t) (t : Table) (depth : nat)
    (s : string) :
  _set_irreps g = Some t ->
  (has_key (lower s) (elements t) = true ->
     exists x, __call__ g s = Ok x
               /\ __getattr__ (S depth) g s = Ok x
               /\ In (lower s, x) (elements t))
  /\ (has_key (lower s) (elements t) = false ->
        __call__ g s = Raise (KeyError (lower s))
        /\ isinstance (KeyError (lower s)) cLookupError = true
        /\ __getattr__ (S depth) g s <> __call__ g s).
Proof.
  intros Hg; split; intros Hk.
  - rewrite (getattr_bound depth g t s Hg), Hk.
    unfold __call__.
    unfold has_key in Hk; apply existsb_exists in Hk.
    destruct Hk as [[k x] [Hin Heq]]; simpl in Heq.
    apply String.eqb_eq in Heq; subst k.
    exists x.
    assert (Hirrep : irrep g (lower s) = Ok x).
    { unfold irrep, attribute, getitem; rewrite Hg; simpl.
      now rewrite (find_key _ _ _ (table_keys_NoDup g t Hg) Hin). }
    auto.
  - rewrite (call_unknown g t s Hg Hk), (getattr_bound depth g t s Hg), Hk.
    repeat split; discriminate.
Qed.

Lemma lookup_by_call_witness :
  (exists x, __call__ D2h "B2G" = Ok x
             /\ __getattr__ 1 D2h "B2G" = Ok x
             /\ In ("b2g", x) (elements (table_D2h D2h)))
  /\ __call__ D2h "x" = Raise (KeyError "x").
Proof.
  split.
  - apply (proj1 (lookup_by_call D2h (table_D2h D2h) 0 "B2G" eq_refl)).
    reflexivity.
  - apply (proj2 (lookup_by_call D2h (table_D2h D2h) 0 "x" eq_refl)).
    reflexivity.
Defined.

(** ** Names of point groups *)

(** Facts about single characters, checked on all 256 of them. *)
Ltac by_ascii c :=
  destruct c as [[] [] [] [] [] [] [] []]; vm_compute;
  try reflexivity; intros; try discriminate; reflexivity.



Lemma alpha_not_digit (c : ascii) : is_alpha c = true -> is_digit c = false.
Proof. by_ascii c. Qed.

Lemma lower_not_digit (c : ascii) : is_lower c = true -> is_digit c = false.
Proof. by_ascii c. Qed.

Lemma lower_char_fixed (c : ascii) :
  is_lower c || is_digit c = true -> lower_char c = c.
Proof. by_ascii c. Qed.

Lemma lower_upper_char (c : ascii) :
  is_lower c = true -> lower_char (upper_char c) = c.
Proof. by_ascii c. Qed.

Lemma upper_char_not_n (c : ascii) :
  is_lower c = true -> Ascii.eqb (upper_char c) "n" = false.
Proof. by_ascii c. Qed.

Lemma digit_not_n (c : ascii) :
  is_digit c = true -> Ascii.eqb c "n" = false.
Proof. by_ascii c. Qed.




Lemma alpha_no_digit (s : string) :
  all_chars is_alpha s = true -> has_digit s = false.
Proof.
  induction s as [|c r IH]; simpl; [reflexivity|].
  intros H; apply andb_true_iff in H; destruct H as [Hc Hr].
  now rewrite (alpha_not_digit c Hc), IH.
Qed.

Lemma isalpha_no_digit (s : string) :
  isalpha s = true -> has_digit s = false.
Proof.
  destruct s as [|c r]; [discriminate|].
  unfold isalpha; apply alpha_no_digit.
Qed.





(** *** Decimal numerals *)

Lemma int_from_acc (d : Decimal.uint) (acc : positive) :
  int_from (Z.pos acc) (NilEmpty.string_of_uint d)
  = Z.pos (Pos.of_uint_acc d acc).
Proof.
  revert acc; induction d; intros acc;
    cbn [NilEmpty.string_of_uint int_from Pos.of_uint_acc];
    try reflexivity;
    rewrite <- IHd; f_equal;
    match goal with
    | |- context [Z.of_nat (nat_of_ascii ?c)] =>
        let v := eval vm_compute in (Z.of_nat (nat_of_ascii c)) in
        change (Z.of_nat (nat_of_ascii c)) with v
    end; lia.
Qed.

Lemma int_from_zero (d : Decimal.uint) :
  int_from 0 (NilEmpty.string_of_uint d) = Z.of_N (Pos.of_uint d).
Proof.
  induction d;
    cbn [NilEmpty.string_of_uint int_from Pos.of_uint Z.of_N];
    try reflexivity; try exact IHd;
    rewrite <- int_from_acc; reflexivity.
Qed.

Lemma uint_digits (d : Decimal.uint) :
  all_chars is_digit (NilEmpty.string_of_uint d) = true.
Proof. induction d; simpl; auto. Qed.

(** [str] of a natural number is a non-empty string of digits that [int]
    reads back. *)
Lemma str_of_int_digits (n : Z) :
  0 <= n ->
  int_of_digits (str_of_int n) = n
  /\ all_chars is_digit (str_of_int n) = true
  /\ str_of_int n <> EmptyString.
Proof.
  intros Hn; destruct n as [|p|p]; [repeat split; discriminate| |lia].
  pose proof (DecimalPos.Unsigned.to_uint_nonnil p) as Hnil.
  assert (E : str_of_int (Z.pos p) = NilEmpty.string_of_uint (Pos.to_uint p)).
  { unfold str_of_int; cbn [Z.to_int NilZero.string_of_int].
    unfold NilZero.string_of_uint.
    destruct (Pos.to_uint p); congruence. }
  rewrite E; unfold int_of_digits.
  rewrite int_from_zero, DecimalPos.Unsigned.of_to.
  split; [reflexivity|]; split; [apply uint_digits|].
  destruct (Pos.to_uint p); try congruence; discriminate.
Qed.

(** *** Strings under [title], [replace], [lower] and the digit search *)

Lemma all_chars_app (p : ascii -> bool) (a b : string) :
  all_chars p (a ++ b)%string = all_chars p a && all_chars p b.
Proof.
  induction a as [|c a IH]; simpl; [reflexivity|].
  now rewrite IH, andb_assoc.
Qed.

Lemma title_lowercase (r : string) :
  all_chars is_lower r = true -> title_from true r = r.
Proof.
  induction r as [|c r IH]; simpl; [reflexivity|].
  intros H; apply andb_true_iff in H; destruct H as [Hc Hr].
  rewrite (lower_char_fixed c) by (now rewrite Hc).
  unfold is_alpha; rewrite Hc, orb_true_r; now rewrite IH.
Qed.

Lemma lower_fixed (s : string) :
  all_chars (fun c => is_lower c || is_digit c) s = true -> lower s = s.
Proof.
  induction s as [|c r IH]; simpl; [reflexivity|].
  intros H; apply andb_true_iff in H; destruct H as [Hc Hr].
  now rewrite (lower_char_fixed c Hc), IH.
Qed.

Section Numeral.

(** [D] stands for the numeral that replaces the placeholder. *)
Variable D : string.
Hypothesis D_digits : all_chars is_digit D = true.
Hypothesis D_nonempty : D <> EmptyString.

Lemma replace_lower_or_digit (r : string) :
  all_chars is_lower r = true ->
  all_chars (fun c => is_lower c || is_digit c) (replace "n" D r) = true.
Proof.
  induction r as [|c r IH]; simpl; [reflexivity|].
  intros H; apply andb_true_iff in H; destruct H as [Hc Hr].
  destruct (Ascii.eqb c "n").
  - rewrite all_chars_app, (IH Hr), andb_true_r.
    clear - D_digits; induction D as [|d D' IHD]; simpl in *; [reflexivity|].
    apply andb_true_iff in D_digits; destruct D_digits as [Hd HD'].
    now rewrite Hd, orb_true_r, IHD.
  - simpl; now rewrite Hc, (IH Hr).
Qed.

Lemma replace_has_digit (r : string) :
  occurs "n" r = true -> has_digit (replace "n" D r) = true.
Proof.
  induction r as [|c r IH]; simpl; [discriminate|].
  destruct (Ascii.eqb c "n"); simpl.
  - intros _; destruct D as [|d D']; [congruence|].
    simpl in *; apply andb_true_iff in D_digits.
    now rewrite (proj1 D_digits).
  - intros H; rewrite (IH H); apply orb_true_r.
Qed.

Lemma replace_no_digit_ahead (r : string) :
  all_chars is_lower r = true ->
  match r with String b _ => Ascii.eqb b "n" = false | EmptyString => True end ->
  no_digit_ahead (replace "n" D r).
Proof.
  destruct r as [|b r]; simpl; [auto|].
  intros H Hb; rewrite Hb; simpl.
  apply andb_true_iff in H; now apply lower_not_digit.
Qed.

Lemma span_digits_numeral (num rest : string) :
  all_chars is_digit num = true -> no_digit_ahead rest ->
  span_digits (num ++ rest)%string = (num, rest).
Proof.
  intros Hnum Hrest; induction num as [|d num IH]; simpl in *.
  - destruct rest as [|b rest]; simpl in *; [reflexivity|].
    now rewrite Hrest.
  - apply andb_true_iff in Hnum; destruct Hnum as [Hd Hnum].
    now rewrite Hd, (IH Hnum).
Qed.

Lemma next_is_not_n (c : ascii) (r : string) :
  no_double "n" (String c r) = true -> Ascii.eqb c "n" = true ->
  match r with String b _ => Ascii.eqb b "n" = false | EmptyString => True end.
Proof.
  simpl; intros H Hc; destruct r as [|b r]; [exact I|].
  rewrite Hc in H; simpl in H.
  apply andb_true_iff in H; destruct H as [H _].
  now apply negb_true_iff in H.
Qed.

Lemma no_double_tail (c : ascii) (r : string) :
  no_double "n" (String c r) = true -> no_double "n" r = true.
Proof.
  cbn [no_double]; intros H; apply andb_true_iff in H; tauto.
Qed.

Lemma search_digits_replace (r : string) :
  all_chars is_lower r = true -> occurs "n" r = true ->
  no_double "n" r = true ->
  search_digits (replace "n" D r) = Some D.
Proof.
  induction r as [|c r IH]; [discriminate|].
  intros Hlow Hocc Hnd.
  pose proof (no_double_tail c r Hnd) as Hnd'.
  cbn [all_chars] in Hlow; apply andb_true_iff in Hlow.
  destruct Hlow as [Hc Hr].
  cbn [replace occurs] in *.
  destruct (Ascii.eqb c "n") eqn:Ecn.
  - pose proof (replace_no_digit_ahead r Hr (next_is_not_n c r Hnd Ecn)) as Hahead.
    pose proof (span_digits_numeral D _ D_digits Hahead) as Hspan.
    destruct D as [|d D'] eqn:ED; [congruence|].
    cbn [append search_digits] in *.
    cbn [all_chars] in D_digits; apply andb_true_iff in D_digits.
    rewrite (proj1 D_digits).
    now rewrite Hspan.
  - cbn [search_digits]; rewrite (lower_not_digit c Hc).
    simpl in Hocc; auto.
Qed.

Lemma sub_digits_skip (num rest : string) :
  all_chars is_digit num = true -> no_digit_ahead rest ->
  sub_digits_from true (num ++ rest)%string = sub_digits_from false rest.
Proof.
  intros Hnum Hrest; induction num as [|d num IH]; simpl in *.
  - destruct rest as [|b rest]; simpl in *; [reflexivity|].
    now rewrite Hrest.
  - apply andb_true_iff in Hnum; destruct Hnum as [Hd Hnum].
    now rewrite Hd, (IH Hnum).
Qed.

Lemma sub_digits_replace (r : string) :
  all_chars is_lower r = true -> no_double "n" r = true ->
  sub_digits_from false (replace "n" D r) = r.
Proof.
  induction r as [|c r IH]; [reflexivity|].
  intros Hlow Hnd.
  pose proof (no_double_tail c r Hnd) as Hnd'.
  cbn [all_chars] in Hlow; apply andb_true_iff in Hlow.
  destruct Hlow as [Hc Hr].
  cbn [replace].
  destruct (Ascii.eqb_spec c "n") as [->|Hcn].
  - pose proof (replace_no_digit_ahead r Hr
                  (next_is_not_n "n" r Hnd eq_refl)) as Hahead.
    destruct D as [|d D'] eqn:ED; [congruence|].
    cbn [append sub_digits_from].
    cbn [all_chars] in D_digits; apply andb_true_iff in D_digits.
    destruct D_digits as [Hd HD'].
    rewrite Hd, (sub_digits_skip D' _ HD' Hahead), (IH Hr Hnd').
    reflexivity.
  - cbn [sub_digits_from]; rewrite (lower_not_digit c Hc).
    now rewrite (IH Hr Hnd').
Qed.

End Numeral.

(** Printing a point group and building one from the printed name gives
    the group back, for every family tag with a placeholder and every
    order from 0 on; the order argument plays no part. *)
Theorem name_round_trip (g : PointGroup.t) (n0 : Z) :
  family_tag (PointGroup.pg g) = true -> 0 <= PointGroup.n g ->
  __init__ (PointGroup.__str__ g) n0 = Ok g.
Proof.
  destruct g as [pg n]; cbn [PointGroup.pg PointGroup.n].
  destruct pg as [|c rest]; [discriminate|].
  unfold family_tag; intros Htag Hn.
  apply andb_true_iff in Htag; destruct Htag as [Htag Hnd].
  apply andb_true_iff in Htag; destruct Htag as [Htag Hocc].
  apply andb_true_iff in Htag; destruct Htag as [Hc Hrest].
  destruct (str_of_int_digits n Hn) as [Hint [Hdig Hne]].
  unfold PointGroup.__str__, title; cbn [PointGroup.pg PointGroup.n title_from].
  assert (Halpha : is_alpha c = true)
    by (unfold is_alpha; now rewrite Hc, orb_true_r).
  rewrite Halpha, (title_lowercase rest Hrest).
  cbn [replace]; rewrite (upper_char_not_n c Hc).
  unfold __init__; cbn [lower].
  rewrite (lower_upper_char c Hc).
  rewrite (lower_fixed _ (replace_lower_or_digit _ Hdig rest Hrest)).
  assert (Hnotalpha :
            isalpha (String c (replace "n" (str_of_int n) rest)) = false).
  { destruct (isalpha _) eqn:E; [|reflexivity].
    apply isalpha_no_digit in E; simpl in E.
    rewrite (replace_has_digit _ Hdig Hne rest Hocc), orb_true_r in E.
    discriminate. }
  rewrite Hnotalpha.
  cbn [search_digits]; rewrite (lower_not_digit c Hc).
  rewrite (search_digits_replace _ Hdig Hne rest Hrest Hocc Hnd).
  unfold sub_digits; cbn [sub_digits_from]; rewrite (lower_not_digit c Hc).
  rewrite (sub_digits_replace _ Hdig Hne rest Hrest Hnd), Hint.
  reflexivity.
Qed.

Lemma name_round_trip_witness : __init__ (PointGroup.__str__ D6h) 1 = Ok D6h.
Proof.
  apply (name_round_trip D6h 1); [reflexivity | discriminate].
Defined.

(** ** Products with lists and powers, inside a tabulated group *)

Lemma flatten_cons (p : irreps) (ps : list irreps) :
  flatten (p :: ps) = items p ++ flatten ps.
Proof. destruct p; simpl; [reflexivity | now rewrite flatten_irreps_id]. Qed.

Lemma product_items_in_table (g : PointGroup.t) (t : Table) (A x : Irrep.t) :
  _set_irreps g = Some t ->
  In A (values (elements t)) -> In x (values (elements t)) ->
  exists p,
    __mul__ A (VIrrep x) = Ok p
    /\ items p = product_items A x
    /\ Forall (fun y => In y (values (elements t))) (items p).
Proof.
  intros Hg HA Hx.
  destruct (product_stays_in_table g t A x Hg HA Hx) as [p [Hp Hin]].
  exists p; unfold product_items; rewrite Hp; auto.
Qed.

Lemma comprehension_products (g : PointGroup.t) (t : Table) (A : Irrep.t)
    (l : list Irrep.t) :
  _set_irreps g = Some t ->
  In A (values (elements t)) ->
  Forall (fun y => In y (values (elements t))) l ->
  exists ps,
    comprehension (__mul__ A) (map VIrrep l) = Ok ps
    /\ flatten ps = flat_map (product_items A) l
    /\ Forall (fun y => In y (values (elements t))) (flatten ps).
Proof.
  intros Hg HA; induction 1 as [|x l Hx Hl IH].
  - exists []; simpl; auto.
  - destruct IH as [ps [Hps [Hflat Hin]]].
    destruct (product_items_in_table g t A x Hg HA Hx) as [p [Hp [Hitems Hpin]]].
    exists (p :: ps).
    cbn [map comprehension]; rewrite Hp, Hps; simpl bind.
    rewrite flatten_cons, Hflat, Hitems.
    repeat split; auto.
    apply Forall_app; split; [now rewrite <- Hitems | now rewrite <- Hflat].
Qed.

Lemma mul_list_spec (g : PointGroup.t) (t : Table) (A : Irrep.t)
    (l : list Irrep.t) :
  _set_irreps g = Some t ->
  In A (values (elements t)) ->
  Forall (fun y => In y (values (elements t))) l ->
  exists r,
    __mul__ A (VList (map VIrrep l)) = Ok (Many r)
    /\ Permutation r (flat_map (product_items A) l)
    /\ canonical (values (elements t)) r
    /\ Forall (fun y => In y (values (elements t))) r.
Proof.
  intros Hg HA Hl.
  destruct (comprehension_products g t A l Hg HA Hl) as [ps [Hps [Hflat Hin]]].
  destruct (sort_spec g t Hg _ Hin) as [r [Hsort [Hperm Hcan]]].
  exists r; rewrite mul_list, Hps; simpl bind; rewrite Hsort; simpl bind.
  rewrite <- Hflat; repeat split; auto.
  rewrite Forall_forall in *; intros y Hy.
  apply Hin, (Permutation_in _ Hperm Hy).
Qed.

(** The product of a table irrep with a list of table irreps distributes
    over the list: the result holds exactly the items of the products
    with each element, in canonical order, all of them table irreps. *)
Theorem product_with_list (g : PointGroup.t) (t : Table) (A : Irrep.t)
    (l : list Irrep.t) :
  _set_irreps g = Some t ->
  In A (values (elements t)) ->
  Forall (fun y => In y (values (elements t))) l ->
  exists r,
    __mul__ A (VList (map VIrrep l)) = Ok (Many r)
    /\ Permutation r (flat_map (product_items A) l)
    /\ canonical (values (elements t)) r
    /\ Forall (fun y => In y (values (elements t))) r.
Proof. exact (mul_list_spec g t A l). Qed.

Lemma product_with_list_witness :
  exists r,
    __mul__ D6h_e1g (VList (map VIrrep [D6h_a1g; D6h_a2g; D6h_e2g]))
      = Ok (Many r)
    /\ Permutation r
         (flat_map (product_items D6h_e1g) [D6h_a1g; D6h_a2g; D6h_e2g])
    /\ canonical (values (elements (table_D6h D6h))) r
    /\ Forall (fun y => In y (values (elements (table_D6h D6h)))) r.
Proof.
  apply (product_with_list D6h (table_D6h D6h) D6h_e1g
           [D6h_a1g; D6h_a2g; D6h_e2g]).
  - reflexivity.
  - simpl; tauto.
  - repeat constructor; simpl; tauto.
Defined.

Lemma mul_closed (g : PointGroup.t) (t : Table) (p : irreps) (A : Irrep.t) :
  _set_irreps g = Some t ->
  Forall (fun y => In y (values (elements t))) (items p) ->
  In A (values (elements t)) ->
  exists r,
    mul p A = Ok r /\ Forall (fun y => In y (values (elements t))) (items r).
Proof.
  intros Hg Hp HA; destruct p as [a|l]; simpl in *.
  - inversion Hp; subst.
    destruct (product_stays_in_table g t a A Hg) as [r [Hr Hin]]; auto.
    exists r; auto.
  - destruct (mul_list_spec g t A l Hg HA Hp) as [r [Hr [_ [_ Hin]]]].
    exists (Many r); auto.
Qed.

Lemma reduce_closed (g : PointGroup.t) (t : Table) (A : Irrep.t) (n : nat) :
  _set_irreps g = Some t ->
  In A (values (elements t)) ->
  forall p,
    Forall (fun y => In y (values (elements t))) (items p) ->
    exists r,
      reduce mul p (repeat A n) = Ok r
      /\ Forall (fun y => In y (values (elements t))) (items r).
Proof.
  intros Hg HA; induction n as [|n IH]; intros p Hp; simpl.
  - exists p; auto.
  - destruct (mul_closed g t p A Hg Hp HA) as [q [Hq Hqin]].
    rewrite Hq; simpl; auto.
Qed.

(** Every integer power of a table irrep is computed without an error,
    and each irrep in the result is again a table irrep, so that it
    prints as one of the symbols of the group. *)
Theorem power_stays_in_table (g : PointGroup.t) (t : Table) (A : Irrep.t)
    (k : Z) :
  _set_irreps g = Some t ->
  In A (values (elements t)) ->
  exists r,
    __pow__ A (VInt k) = Ok r
    /\ Forall (fun y => In y (values (elements t))) (items r)
    /\ (forall x, In x (items r) ->
          exists s, __str__ x = Ok s /\ has_key s (elements t) = true).
Proof.
  intros Hg HA.
  assert (Hr : exists r, __pow__ A (VInt k) = Ok r
                 /\ Forall (fun y => In y (values (elements t))) (items r)).
  { unfold __pow__; destruct (k <? 2).
    - exists (One A); simpl; auto.
    - destruct (Z.to_nat k) as [|n]; simpl.
      + exists (One A); simpl; auto.
      + apply (reduce_closed g t A n Hg HA); simpl; auto. }
  destruct Hr as [r [Hpow Hin]].
  exists r; repeat split; auto.
  intros x Hx; rewrite Forall_forall in Hin.
  pose proof (Hin x Hx) as Hxt.
  unfold values in Hxt; apply in_map_iff in Hxt.
  destruct Hxt as [[s y] [Hy Hsy]]; simpl in Hy; subst y.
  exists s; split.
  - apply (entry_names g t s x Hg Hsy).
  - now apply (has_key_In _ s x).
Qed.

Lemma power_stays_in_table_witness :
  exists r,
    __pow__ D6h_e1g (VInt 5) = Ok r
    /\ Forall (fun y => In y (values (elements (table_D6h D6h)))) (items r)
    /\ (forall x, In x (items r) ->
          exists s, __str__ x = Ok s
                    /\ has_key s (elements (table_D6h D6h)) = true).
Proof.
  apply (power_stays_in_table D6h (table_D6h D6h) D6h_e1g 5).
  - reflexivity.
  - simpl; tauto.
Defined.

Lemma same_list_spec (l l' : list Irrep.t) : same_list l l' = true -> l = l'.
Proof.
  revert l'; induction l as [|x l IH]; intros [|y l']; simpl;
    try discriminate; [reflexivity|].
  intros H; apply andb_true_iff in H; destruct H as [Hxy Hl].
  apply same_spec in Hxy; subst; f_equal; auto.
Qed.

(** In a tabulated group the product is associative: [(A * B) * C] and
    [A * (B * C)] both succeed and hold the same irreps in the same order
    (the former multiplies a list by an irrep, the latter an irrep by a
    list, whenever the inner product is a list). *)
Theorem product_is_associative (g : PointGroup.t) (t : Table)
    (A B C : Irrep.t) :
  _set_irreps g = Some t ->
  In A (values (elements t)) -> In B (values (elements t)) ->
  In C (values (elements t)) ->
  exists l r,
    left_product A B C = Ok l
    /\ right_product A B C = Ok r
    /\ items l = items r.
Proof.
  intros Hg HA HB HC.
  assert (Hall :
    forallb (fun a => forallb (fun b => forallb (fun c =>
      match left_product a b c, right_product a b c with
      | Ok l, Ok r => same_list (items l) (items r)
      | _, _ => false
      end) (values (elements t))) (values (elements t)))
      (values (elements t)) = true)
    by (tabulated_cases Hg; vm_compute; reflexivity).
  rewrite forallb_forall in Hall; specialize (Hall A HA).
  rewrite forallb_forall in Hall; specialize (Hall B HB).
  rewrite forallb_forall in Hall; specialize (Hall C HC).
  destruct (left_product A B C) as [l|]; [|discriminate].
  destruct (right_product A B C) as [r|]; [|discriminate].
  exists l, r; repeat split; now apply same_list_spec.
Qed.

Lemma product_is_associative_witness :
  exists l r,
    left_product D6h_e1g D6h_e2u D6h_e2u = Ok l
    /\ right_product D6h_e1g D6h_e2u D6h_e2u = Ok r
    /\ items l = items r.
Proof.
  apply (product_is_associative D6h (table_D6h D6h)
           D6h_e1g D6h_e2u D6h_e2u);
    try reflexivity; simpl; tauto.
Defined.

(** ** The tables *)

(** Every table that [_set_irreps] binds is a character table in the
    sense the reduction relies on: each character vector has one entry
    per class; the class multiplicities add up to the group order; under
    the weights of the class multiplicities two different rows are
    orthogonal and each row has the group order as its square; and the
    degenerate flag is set exactly on the rows whose character at the
    identity class is not 1. *)
Theorem tables_are_character_tables (g : PointGroup.t) (t : Table)
    (R S : Irrep.t) :
  _set_irreps g = Some t ->
  In R (values (elements t)) -> In S (values (elements t)) ->
  List.length (Irrep.irrep R) = List.length (symop_multiplicity t)
  /\ sum (symop_multiplicity t) = order t
  /\ sum (map (fun ijk => let '(i, j, k) := ijk in i * j * k)
              (zip3 (symop_multiplicity t) (Irrep.irrep R) (Irrep.irrep S)))
     = (if Irrep.__eq__ R S then order t else 0)
  /\ Irrep.degenerate R = negb (nth 0 (Irrep.irrep R) 0 =? 1).
Proof.
  intros Hg HR HS.
  split; [exact (table_lengths g t R Hg HR)|].
  split; [exact (table_order g t Hg)|].
  assert (Hall :
    forallb (fun r => forallb (fun s =>
      (sum (map (fun ijk => let '(i, j, k) := ijk in i * j * k)
                (zip3 (symop_multiplicity t) (Irrep.irrep r) (Irrep.irrep s)))
       =? (if Irrep.__eq__ r s then order t else 0))
      && Bool.eqb (Irrep.degenerate r) (negb (nth 0 (Irrep.irrep r) 0 =? 1)))
      (values (elements t))) (values (elements t)) = true)
    by (tabulated_cases Hg; vm_compute; reflexivity).
  rewrite forallb_forall in Hall; specialize (Hall R HR).
  rewrite forallb_forall in Hall; specialize (Hall S HS).
  apply andb_true_iff in Hall; destruct Hall as [Horth Hflag].
  split; [now apply Z.eqb_eq | now apply Bool.eqb_prop].
Qed.

Lemma tables_are_character_tables_witness :
  List.length (Irrep.irrep D6h_e1g)
    = List.length (symop_multiplicity (table_D6h D6h))
  /\ sum (symop_multiplicity (table_D6h D6h)) = order (table_D6h D6h)
  /\ sum (map (fun ijk => let '(i, j, k) := ijk in i * j * k)
              (zip3 (symop_multiplicity (table_D6h D6h))
                    (Irrep.irrep D6h_e1g) (Irrep.irrep D6h_e2u)))
     = (if Irrep.__eq__ D6h_e1g D6h_e2u then order (table_D6h D6h) else 0)
  /\ Irrep.degenerate D6h_e1g = negb (nth 0 (Irrep.irrep D6h_e1g) 0 =? 1).
Proof.
  apply (tables_are_character_tables D6h (table_D6h D6h) D6h_e1g D6h_e2u);
    try reflexivity; simpl; tauto.
Defined.

(** A non-degenerate irrep of a tabulated group squares to the totally
    symmetric irrep of the group. *)
Theorem square_of_non_degenerate (g : PointGroup.t) (t : Table)
    (A : Irrep.t) :
  _set_irreps g = Some t ->
  In A (values (elements t)) ->
  Irrep.degenerate A = false ->
  exists s, ts g = Ok s /\ __pow__ A (VInt 2) = Ok (One s).
Proof.
  intros Hg HA Hdeg.
  destruct (ts_ones g t Hg) as [Hts _].
  eexists; split; [exact Hts|].
  tabulated_cases Hg; members HA; subst A; try discriminate Hdeg;
    reflexivity.
Qed.

Lemma square_of_non_degenerate_witness :
  exists s, ts D2h = Ok s /\ __pow__ D2h_b2g (VInt 2) = Ok (One s).
Proof.
  apply (square_of_non_degenerate D2h (table_D2h D2h) D2h_b2g).
  - reflexivity.
  - simpl; tauto.
  - reflexivity.
Defined.

(** ** Comparison and sums *)

Lemma lt_loop_absent (self other : Irrep.t) (vals : list Irrep.t) :
  In self vals ->
  (forall y, In y vals -> Irrep.__eq__ y other = false) ->
  lt_loop self other vals = Some true.
Proof.
  induction vals as [|y vals IH]; simpl; [tauto|].
  intros Hself Hother.
  destruct (Irrep.__eq__ y self) eqn:E; [reflexivity|].
  rewrite (Hother y (or_introl eq_refl)).
  destruct Hself as [->|Hself]; [now rewrite irrep_eq_refl in E|].
  apply IH; auto.
Qed.

(** Between irreps of two different tabulated groups the comparison says
    nothing: [A < B] and [B < A] both return true, each operand being
    found in its own table before the other one could be. *)
Theorem comparison_across_groups (g1 g2 : PointGroup.t) (t1 t2 : Table)
    (A B : Irrep.t) :
  _set_irreps g1 = Some t1 -> _set_irreps g2 = Some t2 -> g1 <> g2 ->
  In A (values (elements t1)) -> In B (values (elements t2)) ->
  __lt__ A B = Ok (Some true) /\ __lt__ B A = Ok (Some true).
Proof.
  assert (Hone : forall g t g' t' X Y,
            _set_irreps g = Some t -> _set_irreps g' = Some t' -> g <> g' ->
            In X (values (elements t)) -> In Y (values (elements t')) ->
            __lt__ X Y = Ok (Some true)).
  { intros g t g' t' X Y Hg Hg' Hne HX HY.
    unfold __lt__, attribute; rewrite (table_pg g t X Hg HX), Hg; simpl.
    rewrite (lt_loop_absent X Y _ HX); [reflexivity|].
    intros y Hy.
    destruct (Irrep.__eq__ y Y) eqn:E; [|reflexivity].
    apply irrep_eq_spec in E; destruct E as [E _].
    rewrite (table_pg g t y Hg Hy), (table_pg g' t' Y Hg' HY) in E.
    contradiction. }
  intros H1 H2 Hne HA HB; split; eauto.
Qed.

Lemma comparison_across_groups_witness :
  __lt__ D2h_b3u D6h_a1g = Ok (Some true)
  /\ __lt__ D6h_a1g D2h_b3u = Ok (Some true).
Proof.
  apply (comparison_across_groups D2h D6h (table_D2h D2h) (table_D6h D6h));
    try reflexivity; try discriminate; simpl; tauto.
Defined.

Lemma add_sorted (g : PointGroup.t) (t : Table) (x y : irreps) :
  _set_irreps g = Some t ->
  is_one x || is_one y = true ->
  Forall (fun a => In a (values (elements t))) (items x ++ items y) ->
  exists l,
    add x y = Ok (Many l)
    /\ Permutation l (items x ++ items y)
    /\ canonical (values (elements t)) l.
Proof.
  intros Hg Hone Hxy.
  destruct x as [a|l1], y as [b|l2]; simpl in Hone; try discriminate;
    destruct (sort_spec g t Hg _ Hxy) as [l [Hsort [Hperm Hcan]]];
    simpl in Hsort; exists l; simpl;
    unfold __add__; simpl; rewrite Hsort; auto.
Qed.

(** In a tabulated group the sum does not depend on the order of its
    operands: with at least one of them an irrep, [x + y] and [y + x]
    are the same list. *)
Theorem sum_commutes (g : PointGroup.t) (t : Table) (x y : irreps) :
  _set_irreps g = Some t ->
  is_one x || is_one y = true ->
  Forall (fun a => In a (values (elements t))) (items x) ->
  Forall (fun a => In a (values (elements t))) (items y) ->
  exists l, add x y = Ok (Many l) /\ add y x = Ok (Many l).
Proof.
  intros Hg Hone Hx Hy.
  assert (Hxy : Forall (fun a => In a (values (elements t)))
                       (items x ++ items y)) by (apply Forall_app; auto).
  assert (Hyx : Forall (fun a => In a (values (elements t)))
                       (items y ++ items x)) by (apply Forall_app; auto).
  destruct (add_sorted g t x y Hg Hone Hxy) as [l [Hl [Hperm Hcan]]].
  rewrite orb_comm in Hone.
  destruct (add_sorted g t y x Hg Hone Hyx) as [l' [Hl' [Hperm' Hcan']]].
  exists l; split; [exact Hl|].
  rewrite Hl'; do 2 f_equal.
  apply (canonical_unique g t Hg); auto.
  - rewrite Forall_forall in *; intros a Ha.
    apply Hyx, (Permutation_in _ Hperm' Ha).
  - rewrite Hperm', Hperm; apply Permutation_app_comm.
Qed.

Lemma sum_commutes_witness :
  exists l,
    add (One D6h_e2u) (Many [D6h_b1g; D6h_e1g]) = Ok (Many l)
    /\ add (Many [D6h_b1g; D6h_e1g]) (One D6h_e2u) = Ok (Many l).
Proof.
  apply (sum_commutes D6h (table_D6h D6h)
           (One D6h_e2u) (Many [D6h_b1g; D6h_e1g])).
  - reflexivity.
  - reflexivity.
  - repeat constructor; simpl; tauto.
  - repeat constructor; simpl; tauto.
Defined.

(** ** Equality *)

Lemma eq_right_congruence (e x y : Irrep.t) :
  Irrep.__eq__ x y = true -> Irrep.__eq__ e x = Irrep.__eq__ e y.
Proof.
  intros H; apply irrep_eq_spec in H; destruct H as [Hpg Hirrep].
  unfold Irrep.__eq__; now rewrite Hpg, Hirrep.
Qed.

Lemma lt_loop_congruence (x y z : Irrep.t) (vals : list Irrep.t) :
  Irrep.__eq__ x y = true ->
  lt_loop x z vals = lt_loop y z vals /\ lt_loop z x vals = lt_loop z y vals.
Proof.
  intros H; induction vals as [|e vals [IH1 IH2]]; simpl; [auto|].
  rewrite (eq_right_congruence e x y H), IH1, IH2; auto.
Qed.

(** Two irreps are equal as soon as they have the same point group and
    the same characters, whatever their degenerate flags; equal irreps
    are interchangeable in comparisons and have the same symbol.  The
    product does look at the flag: of two equal irreps that differ in it,
    the flagged one never gives a single irrep with a degenerate factor,
    the unflagged one always does. *)
Theorem equality_ignores_flag (x y z : Irrep.t) :
  (Irrep.__eq__ x y = true
   <-> Irrep.pg x = Irrep.pg y /\ Irrep.irrep x = Irrep.irrep y)
  /\ (Irrep.__eq__ x y = true ->
        __lt__ x z = __lt__ y z
        /\ __lt__ z x = __lt__ z y
        /\ __str__ x = __str__ y)
  /\ (Irrep.__eq__ x y = true ->
      Irrep.degenerate x = true -> Irrep.degenerate y = false ->
      Irrep.degenerate z = true ->
      PointGroup.__eq__ (Irrep.pg x) (Irrep.pg z) = true ->
      (exists c, __mul__ y (VIrrep z) = Ok (One c))
      /\ (forall c, __mul__ x (VIrrep z) <> Ok (One c))).
Proof.
  split; [apply irrep_eq_spec|]; split.
  - intros H.
    pose proof (proj1 (irrep_eq_spec _ _) H) as [Hpg _].
    split; [|split].
    + unfold __lt__, attribute; rewrite Hpg.
      destruct (_set_irreps (Irrep.pg y)) as [t|]; simpl; [|reflexivity].
      now rewrite (proj1 (lt_loop_congruence x y z (values (elements t)) H)).
    + unfold __lt__, attribute.
      destruct (_set_irreps (Irrep.pg z)) as [t|]; simpl; [|reflexivity].
      now rewrite (proj2 (lt_loop_congruence x y z (values (elements t)) H)).
    + unfold __str__, symbol, attribute, inv_getitem; rewrite Hpg.
      destruct (_set_irreps (Irrep.pg y)) as [t|]; simpl; [|reflexivity].
      assert (Hfind : forall els,
                find (fun kv => Irrep.__eq__ (snd kv) x) els
                = find (fun kv : string * Irrep.t => Irrep.__eq__ (snd kv) y)
                       els).
      { induction els as [|kv els IH]; simpl; [reflexivity|].
        now rewrite (eq_right_congruence (snd kv) x y H), IH. }
      now rewrite Hfind.
  - intros H Hdx Hdy Hdz Hxz.
    pose proof (proj1 (irrep_eq_spec _ _) H) as [Hpg _].
    cbn [__mul__]; unfold mul_irrep.
    rewrite <- Hpg, Hxz, Hdx, Hdy, Hdz; split.
    + eexists; reflexivity.
    + intros c; simpl andb; cbv iota.
      unfold attribute.
      destruct (_set_irreps (Irrep.pg x)) as [t|]; simpl; [|discriminate].
      destruct (coefficients _ _ _ _); simpl; discriminate.
Qed.

Lemma equality_ignores_flag_witness :
  (__lt__ D6h_e1g D6h_b1g = __lt__ D6h_e1g_unflagged D6h_b1g
   /\ __lt__ D6h_b1g D6h_e1g = __lt__ D6h_b1g D6h_e1g_unflagged
   /\ __str__ D6h_e1g = __str__ D6h_e1g_unflagged)
  /\ (exists c, __mul__ D6h_e1g_unflagged (VIrrep D6h_e2u) = Ok (One c))
  /\ (forall c, __mul__ D6h_e1g (VIrrep D6h_e2u) <> Ok (One c)).
Proof.
  split.
  - apply (proj1 (proj2 (equality_ignores_flag
                           D6h_e1g D6h_e1g_unflagged D6h_b1g))).
    reflexivity.
  - apply (proj2 (proj2 (equality_ignores_flag
                           D6h_e1g D6h_e1g_unflagged D6h_e2u)));
      reflexivity.
Defined.

(** ** Supported groups *)

(** A table is bound for exactly the point groups that the five shorthand
    classes construct. *)
Theorem supported_groups (g : PointGroup.t) :
  (exists t, _set_irreps g = Some t)
  <-> exists name, In name shorthands /\ named name = Ok g.
Proof.
  split.
  - intros [t Ht].
    destruct (set_irreps_cases g t Ht)
      as [[-> _]|[[-> _]|[[-> _]|[[-> _]|[-> _]]]]].
    + exists "C1"; simpl; auto.
    + exists "C2v"; simpl; auto.
    + exists "D3"; simpl; auto.
    + exists "D2h"; simpl; auto 6.
    + exists "D6h"; simpl; auto 7.
  - intros [name [Hin Hname]].
    unfold shorthands in Hin; members Hin; subst name;
      vm_compute in Hname; inversion Hname; subst g;
      eexists; reflexivity.
Qed.

Lemma supported_groups_witness : exists t, _set_irreps D6h = Some t.
Proof.
  apply (proj2 (supported_groups D6h)).
  exists "D6h"; split; [simpl; tauto | reflexivity].
Defined.
